(** * Verification of the Percy core concurrency engine and logger

    A shallow embedding of [packages/core/dist/queue.js] (the priority
    queue), of the [PercyLogger] class of the logger bundle and of the
    guard of [Percy.snapshot], followed by the properties stated for
    them in the specification. *)

From Stdlib Require Import ZArith List String Ascii Bool Lia.
Import ListNotations.

Open Scope string_scope.
Open Scope list_scope.
Open Scope Z_scope.

(* ===================================================================== *)
(** ** JavaScript [Map]: an insertion-ordered map with string keys *)
(* ===================================================================== *)

Module JsMap.

Section Defs.
Context {V : Type}.

Definition t := list (string * V).

Definition empty : t := [].

(** [map.get(k)]: [None] stands for [undefined]. *)
Fixpoint get (k : string) (m : t) : option V :=
  match m with
  | [] => None
  | (k', v) :: rest => if String.eqb k' k then Some v else get k rest
  end.

(** [map.has(k)] *)
Definition has (k : string) (m : t) : bool :=
  match get k m with Some _ => true | None => false end.

(** [map.set(k, v)]: an existing key keeps its position, a new key is
    appended. *)
Fixpoint set (k : string) (v : V) (m : t) : t :=
  match m with
  | [] => [(k, v)]
  | (k', v') :: rest =>
      if String.eqb k' k then (k, v) :: rest else (k', v') :: set k v rest
  end.

(** [map.delete(k)] *)
Definition delete (k : string) (m : t) : t :=
  filter (fun e => negb (String.eqb (fst e) k)) m.

(** [map.size] *)
Definition size (m : t) : Z := Z.of_nat (List.length m).

(** [[...map.keys()]] *)
Definition keys (m : t) : list string := map fst m.

Definition values (m : t) : list V := map snd m.
End Defs.

Arguments t : clear implicits.

(** [array.indexOf(k)]: the first position of [k], or [-1]. *)
Fixpoint index_of (k : string) (ks : list string) : Z :=
  match ks with
  | [] => -1
  | k' :: rest =>
      if String.eqb k' k then 0
      else let i := index_of k rest in if i =? -1 then -1 else i + 1
  end.

End JsMap.

(* ===================================================================== *)
(** ** The priority queue ([queue.js]) *)
(* ===================================================================== *)

Module Queue.

(** The [priority] argument of [push]: a number, [null], or [undefined]
    when the argument is left out. *)
Inductive Priority :=
| PUndefined
| PNull
| PNum (n : Z).

(** [p != null] (loose inequality: false for [null] and [undefined]) *)
Definition not_nullish (p : Priority) : bool :=
  match p with PNum _ => true | _ => false end.

(** [p == null] *)
Definition nullish (p : Priority) : bool := negb (not_nullish p).

(** [ToNumber]: [undefined] becomes [NaN] (here [None]), [null] becomes [0]. *)
Definition to_number (p : Priority) : option Z :=
  match p with
  | PUndefined => None
  | PNull => Some 0
  | PNum n => Some n
  end.

(** [a < b] on priorities: false as soon as one side is [NaN]. *)
Definition js_lt (a b : Priority) : bool :=
  match to_number a, to_number b with
  | Some x, Some y => x <? y
  | _, _ => false
  end.

(** Task callbacks. A client callback is opaque and is assumed not to call
    back into the queue synchronously; the callback that [flush] pushes is
    [() => { if (stopped) this.stop(); }]. *)
Inductive Callback :=
| CbClient (f : nat)
| CbFlush (stopped : bool).

(** A task. [promise] is the identity of the promise object made by
    [push]; it tells apart two tasks pushed under one id. *)
Record Task := mkTask {
  id : string;
  callback : Callback;
  priority : Priority;
  promise : nat
}.

(** How a task's promise was settled. *)
Inductive Outcome :=
| Resolved
| RejectedCanceled
| RejectedError.

(** The queue object, together with the part of the heap its closures
    hold on to:
    - [flights]: the tasks whose callback was started by [_dequeue] and
      whose [done] handlers have not fired yet, each with the
      [task.cancel.triggered] flag;
    - [outcomes]: the promises settled so far;
    - [calls]: the promises whose callback was invoked, in order;
    - [fresh]: the identity the next promise gets;
    - [promotions]: every task [_dequeue] promoted so far, with the
      [queued] map [next()] picked it from. *)
Record Queue := mkQueue {
  running : bool;
  closed : bool;
  concurrency : Z;
  queued : JsMap.t Task;
  pending : JsMap.t Task;
  flights : list (Task * bool);
  outcomes : list (nat * Outcome);
  calls : list nat;
  fresh : nat;
  promotions : list (Task * JsMap.t Task)
}.

(** [new Queue(concurrency)] *)
Definition new_queue (c : Z) : Queue :=
  mkQueue true false c [] [] [] [] [] 0%nat [].

Definition set_running (b : bool) (q : Queue) : Queue :=
  mkQueue b (closed q) (concurrency q) (queued q) (pending q)
          (flights q) (outcomes q) (calls q) (fresh q) (promotions q).

Definition set_closed (b : bool) (q : Queue) : Queue :=
  mkQueue (running q) b (concurrency q) (queued q) (pending q)
          (flights q) (outcomes q) (calls q) (fresh q) (promotions q).

Definition set_queued (m : JsMap.t Task) (q : Queue) : Queue :=
  mkQueue (running q) (closed q) (concurrency q) m (pending q)
          (flights q) (outcomes q) (calls q) (fresh q) (promotions q).

Definition set_pending (m : JsMap.t Task) (q : Queue) : Queue :=
  mkQueue (running q) (closed q) (concurrency q) (queued q) m
          (flights q) (outcomes q) (calls q) (fresh q) (promotions q).

Definition set_flights (f : list (Task * bool)) (q : Queue) : Queue :=
  mkQueue (running q) (closed q) (concurrency q) (queued q) (pending q)
          f (outcomes q) (calls q) (fresh q) (promotions q).

Definition flush_id : string := "@@/flush".

(** [stop()] *)
Definition stop (q : Queue) : Queue := set_running false q.

(** [open()] *)
Definition open (q : Queue) : Queue := set_closed false q.

(** [get size()] *)
Definition size (q : Queue) : Z :=
  JsMap.size (queued q) + JsMap.size (pending q).

(** [has(id)] *)
Definition has (i : string) (q : Queue) : bool :=
  JsMap.has i (queued q) || JsMap.has i (pending q).

(** [clear()]: the state after the call and the returned number. *)
Definition clear (q : Queue) : Z * Queue :=
  let q' := set_queued JsMap.empty q in
  (size q', q').

(** The test of the loop body of [next()]:
    [!next || task.priority != null && next.priority == null
           || task.priority < next.priority] *)
Definition replaces (next : option Task) (task : Task) : bool :=
  match next with
  | None => true
  | Some n =>
      (not_nullish (priority task) && nullish (priority n))
      || js_lt (priority task) (priority n)
  end.

(** The loop of [next()] over the entries of [queued], from the candidate
    [next] found so far. *)
Fixpoint scan (next : option Task) (entries : JsMap.t Task) : option Task :=
  match entries with
  | [] => next
  | (i, task) :: rest =>
      let next' := if replaces next task then Some task else next in
      if String.eqb i flush_id then next' else scan next' rest
  end.

(** [next()] *)
Definition next (q : Queue) : option Task := scan None (queued q).

(** [task.cancel()] on the task whose promise is [p]: sets [triggered]. *)
Definition trigger (p : nat) (fl : list (Task * bool)) : list (Task * bool) :=
  map (fun f => if Nat.eqb (promise (fst f)) p then (fst f, true) else f) fl.

(** [cancel(id)] *)
Definition cancel (i : string) (q : Queue) : Queue :=
  let fl := match JsMap.get i (pending q) with
            | Some t => trigger (promise t) (flights q)
            | None => flights q
            end in
  let q1 := set_flights fl q in
  let q2 := set_pending (JsMap.delete i (pending q1)) q1 in
  set_queued (JsMap.delete i (queued q2)) q2.

(** [generatePromise(task.callback)] followed by [task.cancel = gen.cancel]:
    the callback is invoked, the run is recorded as in flight with its
    cancel handle not yet triggered. The adapter captures what the callback
    throws, so the [catch] of [_dequeue] is not entered. *)
Definition invoke (task : Task) (q : Queue) : Queue :=
  let q' := mkQueue (running q) (closed q) (concurrency q) (queued q)
                    (pending q) (flights q ++ [(task, false)]) (outcomes q)
                    (calls q ++ [promise task]) (fresh q) (promotions q) in
  match callback task with
  | CbFlush true => stop q'
  | _ => q'
  end.

(** The promotion done by [_dequeue] once [next()] returned [task]. *)
Definition promote (task : Task) (q : Queue) : Queue :=
  let q0 := mkQueue (running q) (closed q) (concurrency q) (queued q)
                    (pending q) (flights q) (outcomes q) (calls q) (fresh q)
                    (promotions q ++ [(task, queued q)]) in
  let q1 := set_queued (JsMap.delete (id task) (queued q0)) q0 in
  let q2 := set_pending (JsMap.set (id task) task (pending q1)) q1 in
  invoke task q2.

(** The task [_dequeue()] promotes, if any. *)
Definition promoted (q : Queue) : option Task :=
  if negb (running q) then None
  else if concurrency q <=? JsMap.size (pending q) then None
  else next q.

(** [_dequeue()] *)
Definition _dequeue (q : Queue) : Queue :=
  match promoted q with
  | None => q
  | Some task => promote task q
  end.

(** The creation of the task and of its promise in [push], up to
    [this.#queued.set(id, task)]. *)
Definition add_task (i : string) (cb : Callback) (prio : Priority)
  (q : Queue) : Queue :=
  let task := mkTask i cb prio (fresh q) in
  mkQueue (running q) (closed q) (concurrency q)
          (JsMap.set i task (queued q)) (pending q) (flights q)
          (outcomes q) (calls q) (S (fresh q)) (promotions q).

(** The body of [push] after the closed-queue guard. *)
Definition enqueue (i : string) (cb : Callback) (prio : Priority)
  (q : Queue) : nat * Queue :=
  let q1 := cancel i q in
  (fresh q1, _dequeue (add_task i cb prio q1)).

(** [push(id, callback, priority)]: the returned promise ([None] for
    [undefined]) and the state after the call. *)
Definition push (i : string) (cb : Callback) (prio : Priority)
  (q : Queue) : option nat * Queue :=
  if closed q && negb (String.prefix "@@/" i) then (None, q)
  else let (p, q') := enqueue i cb prio q in (Some p, q').

(** The condition of the loop of [run()]:
    [this.running && this.#queued.size && this.#pending.size < this.concurrency] *)
Definition run_cond (q : Queue) : bool :=
  running q && (0 <? JsMap.size (queued q))
  && (JsMap.size (pending q) <? concurrency q).

(** The loop of [run()], bounded by [fuel] iterations. *)
Fixpoint run_loop (fuel : nat) (q : Queue) : Queue :=
  match fuel with
  | O => q
  | S fuel' => if run_cond q then run_loop fuel' (_dequeue q) else q
  end.

(** [run()]: every iteration removes a task from [queued], so its size
    bounds the number of iterations. *)
Definition run (q : Queue) : Queue :=
  let q' := set_running true q in
  run_loop (List.length (queued q')) q'.

(** [close(abort)] *)
Definition close (abort : bool) (q : Queue) : Queue :=
  let q' := if abort then snd (clear (stop q)) else q in
  set_closed true q'.

(** The synchronous part of [flush(callback)]: [run()] and the push of the
    sentinel, whose callback remembers whether the queue was stopped. *)
Definition flush (q : Queue) : option nat * Queue :=
  let stopped := negb (running q) in
  push flush_id (CbFlush stopped) PUndefined (run q).

(** The number the poll function of [flush] passes to [callback]:
    [pend] is [this.#pending.size], handed over by [idle]. *)
Definition flush_progress (q : Queue) : Z :=
  let pend := JsMap.size (pending q) in
  let left := JsMap.index_of flush_id (JsMap.keys (queued q)) in
  let left := if (Z.lnot left =? 0) && negb (JsMap.has flush_id (pending q))
              then 0 else left in
  pend + left.

(** The poll function of [idle]: true when the wait is over. *)
Definition idle_done (q : Queue) : bool := JsMap.size (pending q) =? 0.

(** The [canceled] handler of the future [flush] returns. *)
Definition flush_canceled (stopped : bool) (q : Queue) : Queue :=
  cancel flush_id (if stopped then stop q else q).

(** Modelled from the spec: [generatePromise] of [utils.js], the
    promise-generator adapter, which is not part of the sources at hand.
    A run whose [cancel()] was called fails with the distinguished canceled
    failure; any other run ends as its callback ends. *)
Definition adapter_outcome (triggered : bool) (o : Outcome) : Outcome :=
  if triggered then RejectedCanceled else o.

Fixpoint find_flight (p : nat) (fl : list (Task * bool)) : option (Task * bool) :=
  match fl with
  | [] => None
  | f :: rest => if Nat.eqb (promise (fst f)) p then Some f else find_flight p rest
  end.

Definition remove_flight (p : nat) (fl : list (Task * bool)) : list (Task * bool) :=
  filter (fun f => negb (Nat.eqb (promise (fst f)) p)) fl.

(** The handler [done(callback)(arg)] of the run whose promise is [p],
    fired when the adapter's promise settles with [o]; nothing happens when
    no such run is in flight. *)
Definition settle (p : nat) (o : Outcome) (q : Queue) : Queue :=
  match find_flight p (flights q) with
  | None => q
  | Some (task, trig) =>
      let q1 := if negb trig
                then set_pending (JsMap.delete (id task) (pending q)) q
                else q in
      let q2 := mkQueue (running q1) (closed q1) (concurrency q1) (queued q1)
                        (pending q1) (remove_flight p (flights q1))
                        (outcomes q1 ++ [(p, adapter_outcome trig o)])
                        (calls q1) (fresh q1) (promotions q1) in
      _dequeue q2
  end.

(** What can happen to a queue: the calls of its interface and the
    settling of a run in flight. *)
Inductive Op :=
| OpPush (i : string) (f : nat) (prio : Priority)
| OpCancel (i : string)
| OpClear
| OpRun
| OpStop
| OpOpen
| OpClose (abort : bool)
| OpFlush
| OpFlushCanceled (stopped : bool)
| OpSettle (p : nat) (o : Outcome).

Definition step (o : Op) (q : Queue) : Queue :=
  match o with
  | OpPush i f prio => snd (push i (CbClient f) prio q)
  | OpCancel i => cancel i q
  | OpClear => snd (clear q)
  | OpRun => run q
  | OpStop => stop q
  | OpOpen => open q
  | OpClose abort => close abort q
  | OpFlush => snd (flush q)
  | OpFlushCanceled stopped => flush_canceled stopped q
  | OpSettle p o => settle p o q
  end.

(** The state after a sequence of operations, first operation first. *)
Definition exec (ops : list Op) (q : Queue) : Queue :=
  fold_left (fun q o => step o q) ops q.

Definition outcome_of (p : nat) (q : Queue) : option Outcome :=
  match find (fun e => Nat.eqb (fst e) p) (outcomes q) with
  | Some e => Some (snd e)
  | None => None
  end.

End Queue.

(* ===================================================================== *)
(** ** The logger ([PercyLogger]) *)
(* ===================================================================== *)

Module Logger.

(** The four log levels; [LOG_LEVELS] gives their ranks. Level names
    outside these four are not modelled, so [LOG_LEVELS[level] != null]
    always holds. *)
Inductive Level := LDebug | LInfo | LWarn | LError.

Definition LOG_LEVELS (l : Level) : Z :=
  match l with
  | LDebug => 0
  | LInfo => 1
  | LWarn => 2
  | LError => 3
  end.

Definition level_eqb (a b : Level) : bool := LOG_LEVELS a =? LOG_LEVELS b.

(** What the logger is parameterised by. Regular expressions are the
    host's: [new RegExp(source)] may throw, and [regexp.test(subject)] is
    given by the source of the expression. [format] is
    [PercyLogger.format(debug, level, message, elapsed)], a pure function of
    the current level and of its arguments; the labels and colours it
    computes play no part in what is proved below. *)
Class Runtime := {
  regexp_valid : string -> bool;
  regexp_test : string -> string -> bool;
  format : Level -> string -> Level -> string -> Z -> string
}.

(** [this.namespaces.string]: absent at first, then whatever [debug]
    stores there. *)
Inductive NsString :=
| NsUndefined
| NsStr (s : string)
| NsArr (parts : list string).

(** [this.namespaces]; a regular expression is kept as its source. *)
Record Namespaces := mkNamespaces {
  ns_string : NsString;
  include : list string;
  exclude : list string
}.

Definition Meta := JsMap.t string.

(** An [Error] object: its [message], its [stack] when it has one, and
    what [toString()] gives. *)
Record ErrorObj := mkError {
  e_message : string;
  e_stack : option string;
  e_text : string
}.

(** The [message] argument of [log]. *)
Inductive Message :=
| MsgString (s : string)
| MsgError (e : ErrorObj).

Record LogEntry := mkEntry {
  entry_debug : string;
  entry_level : Level;
  entry_message : string;
  entry_meta : Meta;
  entry_timestamp : Z
}.

(** What is done to a terminal stream. *)
Inductive StreamOp :=
| Write (s : string)
| CursorTo (x : Z)
| ClearLine.

(** The message of a [{log: [...]}] packet. *)
Inductive WireMessage :=
| WireString (s : string)
| WireErrorObj (e : ErrorObj)
| WireSerialized (message : string) (stack : string).

Record Packet := mkPacket {
  pk_debug : string;
  pk_level : Level;
  pk_message : WireMessage;
  pk_meta : Meta
}.

Record Socket := mkSocket {
  readyState : Z;
  sent : list Packet
}.

Record Progress := mkProgress {
  pr_message : string;
  pr_persist : bool
}.

Record Logger := mkLogger {
  level : Level;
  namespaces : Namespaces;
  messages : list LogEntry;
  deprecations : list string;
  socket : option Socket;
  lastlog : option Z;
  _progress : option Progress;
  isTTY : bool;
  stdout : list StreamOp;
  stderr : list StreamOp
}.

(** The field initialisers of the constructor. *)
Definition initial (tty : bool) : Logger :=
  mkLogger LInfo (mkNamespaces NsUndefined ["^.*?$"] []) [] [] None None None
           tty [] [].

Definition set_level (l : Level) (lg : Logger) : Logger :=
  mkLogger l (namespaces lg) (messages lg) (deprecations lg) (socket lg)
           (lastlog lg) (_progress lg) (isTTY lg) (stdout lg) (stderr lg).

Definition set_namespaces (n : Namespaces) (lg : Logger) : Logger :=
  mkLogger (level lg) n (messages lg) (deprecations lg) (socket lg)
           (lastlog lg) (_progress lg) (isTTY lg) (stdout lg) (stderr lg).

(** [loglevel(level)]: [None] for a call without argument. *)
Definition loglevel (l : option Level) (lg : Logger) : Level * Logger :=
  match l with
  | Some l' => (l', set_level l' lg)
  | None => (level lg, lg)
  end.

(** The characters of [[\s,]] among the code units below 256. *)
Definition is_sep (c : ascii) : bool :=
  let n := nat_of_ascii c in
  (Nat.eqb n 9 || Nat.eqb n 10 || Nat.eqb n 11 || Nat.eqb n 12
   || Nat.eqb n 13 || Nat.eqb n 32 || Nat.eqb n 160 || Nat.eqb n 44)%bool.

(** The pieces between single separators, [cur] being the piece read so
    far. *)
Fixpoint fields (s : string) (cur : string) : list string :=
  match s with
  | EmptyString => [cur]
  | String c rest =>
      if is_sep c then cur :: fields rest EmptyString
      else fields rest (String.append cur (String c EmptyString))
  end.

Definition nonempty (s : string) : bool :=
  match s with EmptyString => false | _ => true end.

(** [namespaces.split(/[\s,]+/).filter(Boolean)]: the maximal runs of
    characters that are not separators. *)
Definition split_namespaces (s : string) : list string :=
  filter nonempty (fields s EmptyString).

(** [ns.replace(/:?\*/g, m => m[0] === ':' ? ':?.*?' : '.*?')] *)
Fixpoint replace_stars (s : string) : string :=
  match s with
  | EmptyString => EmptyString
  | String c rest =>
      match rest with
      | String c' rest' =>
          if (Ascii.eqb c ":" && Ascii.eqb c' "*")%bool
          then String.append ":?.*?" (replace_stars rest')
          else if Ascii.eqb c "*" then String.append ".*?" (replace_stars rest)
          else String c (replace_stars rest)
      | EmptyString =>
          if Ascii.eqb c "*" then ".*?" else String c EmptyString
      end
  end.

(** [ns.substr(1)] *)
Definition substr1 (s : string) : string :=
  match s with EmptyString => EmptyString | String _ rest => rest end.

Section WithRuntime.
Context {rt : Runtime}.

(** The [reduce] of [debug]: [None] when some [new RegExp] throws. *)
Fixpoint reduce_namespaces (parts : list string) (acc : Namespaces)
  : option Namespaces :=
  match parts with
  | [] => Some acc
  | ns :: rest =>
      let ns := replace_stars ns in
      if String.prefix "-" ns then
        let re := String.append "^" (String.append (substr1 ns) "$") in
        if regexp_valid re
        then reduce_namespaces rest
               (mkNamespaces (ns_string acc) (include acc) (exclude acc ++ [re]))
        else None
      else
        let re := String.append "^" (String.append ns "$") in
        if regexp_valid re
        then reduce_namespaces rest
               (mkNamespaces (ns_string acc) (include acc ++ [re]) (exclude acc))
        else None
  end.

(** [this.namespaces.string === namespaces] for a string argument. *)
Definition same_string (stored : NsString) (s : string) : bool :=
  match stored with
  | NsStr s' => String.eqb s' s
  | _ => false
  end.

(** [debug(namespaces)]: whether the call threw, and the logger after
    it. The seed of [reduce] takes the re-bound [namespaces], that is the
    array of pieces, as its [string]. *)
Definition debug (s : string) (lg : Logger) : bool * Logger :=
  if same_string (ns_string (namespaces lg)) s then (false, lg)
  else
    let lg1 := set_namespaces
                 (mkNamespaces (NsStr s) (include (namespaces lg))
                               (exclude (namespaces lg))) lg in
    let parts := split_namespaces s in
    match parts with
    | [] => (false, lg1)
    | _ =>
        let lg2 := snd (loglevel (Some LDebug) lg1) in
        match reduce_namespaces parts (mkNamespaces (NsArr parts) [] []) with
        | Some n => (false, set_namespaces n lg2)
        | None => (true, lg2)
        end
    end.

(** [shouldLog(debug, level)] *)
Definition shouldLog (dbg : string) (l : Level) (lg : Logger) : bool :=
  (LOG_LEVELS (level lg) <=? LOG_LEVELS l)
  && negb (existsb (fun ns => regexp_test ns dbg) (exclude (namespaces lg)))
  && existsb (fun ns => regexp_test ns dbg) (include (namespaces lg)).

(** [get isRemote()] *)
Definition isRemote (lg : Logger) : bool :=
  match socket lg with
  | Some s => readyState s =? 1
  | None => false
  end.

(** [write(level, message)] *)
Definition write (l : Level) (message : string) (lg : Logger) : Logger :=
  let progress := if isTTY lg then _progress lg else None in
  let out1 := match progress with
              | Some _ => stdout lg ++ [CursorTo 0; ClearLine]
              | None => stdout lg
              end in
  let line := Write (String.append message (String "010" EmptyString)) in
  let out2 := if level_eqb l LInfo then out1 ++ [line] else out1 in
  let err2 := if level_eqb l LInfo then stderr lg else stderr lg ++ [line] in
  let persist := match _progress lg with
                 | Some p => pr_persist p
                 | None => false
                 end in
  let prog3 := if persist then _progress lg else None in
  let out3 := if persist
              then match progress with
                   | Some p => out2 ++ [Write (pr_message p)]
                   | None => out2
                   end
              else out2 in
  mkLogger (level lg) (namespaces lg) (messages lg) (deprecations lg)
           (socket lg) (lastlog lg) prog3 (isTTY lg) out3 err2.

(** [{remote: true, ...meta}] *)
Definition remote_meta (meta : Meta) : Meta :=
  fold_left (fun m kv => JsMap.set (fst kv) (snd kv) m) meta
            [("remote", "true")].

(** [isError && message.stack || message.message || message.toString()];
    the empty string is falsy. *)
Definition message_text (isError : bool) (message : Message) : string :=
  match message with
  | MsgString s => s
  | MsgError e =>
      let stack := match e_stack e with Some st => st | None => EmptyString end in
      if (isError && nonempty stack)%bool then stack
      else if nonempty (e_message e) then e_message e
      else e_text e
  end.

(** [log(debug, level, message, meta)] at time [now] ([Date.now()]). *)
Definition log (dbg : string) (l : Level) (message : Message) (meta : Meta)
  (now : Z) (lg : Logger) : Logger :=
  let isError := match message with
                 | MsgString _ => false
                 | MsgError _ => (level_eqb l LError || level_eqb l LDebug)%bool
                 end in
  if isRemote lg then
    let wire := match message with
                | MsgString s => WireString s
                | MsgError e =>
                    if isError then
                      match e_stack e with
                      | Some st => WireSerialized (e_message e) st
                      | None => WireErrorObj e
                      end
                    else WireErrorObj e
                end in
    match socket lg with
    | Some s =>
        mkLogger (level lg) (namespaces lg) (messages lg) (deprecations lg)
                 (Some (mkSocket (readyState s)
                          (sent s ++ [mkPacket dbg l wire (remote_meta meta)])))
                 (lastlog lg) (_progress lg) (isTTY lg) (stdout lg) (stderr lg)
    | None => lg
    end
  else
    let text := message_text isError message in
    let entry := mkEntry dbg l text meta now in
    let lg1 := mkLogger (level lg) (namespaces lg) (messages lg ++ [entry])
                        (deprecations lg) (socket lg) (lastlog lg)
                        (_progress lg) (isTTY lg) (stdout lg) (stderr lg) in
    if shouldLog dbg l lg1 then
      let last := match lastlog lg1 with
                  | Some t => if t =? 0 then now else t
                  | None => now
                  end in
      let elapsed := now - last in
      let text' := match message with
                   | MsgError e =>
                       if (isError && negb (level_eqb (level lg1) LDebug))%bool
                       then e_text e else text
                   | MsgString _ => text
                   end in
      let lg2 := write l (format (level lg1) dbg (if isError then LError else l)
                                 text' elapsed) lg1 in
      mkLogger (level lg2) (namespaces lg2) (messages lg2) (deprecations lg2)
               (socket lg2) (Some now) (_progress lg2) (isTTY lg2)
               (stdout lg2) (stderr lg2)
    else lg1.
End WithRuntime.

End Logger.

(* ===================================================================== *)
(** ** The guard of [Percy.snapshot] *)
(* ===================================================================== *)

Module Percy.

(** [this.build]: every field may be missing. *)
Record Build := mkBuild {
  build_id : option string;
  build_number : option Z;
  build_url : option string;
  build_error : option string;
  build_failed : bool
}.

(** The Percy instance: [readyState] is [null] ([None]) or a number. *)
Record Percy := mkPercy {
  readyState : option Z;
  build : option Build;
  dryRun : bool;
  skipUploads : bool;
  deferUploads : bool;
  uploads : Queue.Queue;
  snapshots : Queue.Queue
}.

(** The argument of [snapshot]: a string, an options object (kept
    abstract, as a key) or an array of such arguments. *)
#[warnings="-register-all"]
Inductive Options :=
| OptString (s : string)
| OptObject (o : nat)
| OptArray (items : list Options).

(** The result of a call: an exception, or the returned future. *)
Inductive Result :=
| Throws (message : string)
| Returns (future : nat).

(** [this.build?.error], with [None] for a missing build or field. *)
Definition build_error_of (p : Percy) : option string :=
  match build p with
  | Some b => build_error b
  | None => None
  end.

(** Truthiness of [this.build?.error]: a non-empty string. *)
Definition error_set (p : Percy) : bool :=
  match build_error_of p with
  | Some e => Logger.nonempty e
  | None => false
  end.

(** [this.readyState !== 1] *)
Definition not_running (p : Percy) : bool :=
  match readyState p with
  | Some n => negb (n =? 1)
  | None => true
  end.

Section Snapshot.
(** What [snapshot] does with one string or object once the guards are
    passed: validation, gathering and the pushes on the snapshots queue,
    which are the work of [snapshot.js] and of the client. *)
Variable take : Options -> Percy -> Result * Percy.

(** [Promise.all(...)] of the futures of an array. *)
Variable all : list nat -> nat.

(** [snapshot(options)]. In the array case, a call of [map] that throws
    ends the whole call. *)
Fixpoint snapshot (options : Options) (p : Percy) {struct options}
  : Result * Percy :=
  if not_running p then (Throws "Not running", p)
  else if error_set p then
    (Throws (match build_error_of p with Some e => e | None => "" end), p)
  else
    match options with
    | OptArray items =>
        (fix each (l : list Options) (p : Percy) (acc : list nat)
           : Result * Percy :=
           match l with
           | [] => (Returns (all acc), p)
           | o :: rest =>
               match snapshot o p with
               | (Throws m, p') => (Throws m, p')
               | (Returns f, p') => each rest p' (acc ++ [f])
               end
           end) items p []
    | _ => take options p
    end.
End Snapshot.

End Percy.

(* ===================================================================== *)
(** ** Notions used to state the properties of the queue *)
(* ===================================================================== *)

Module QueueSpec.
Import Queue.

(** Every entry of a map of tasks sits under the id of its task. *)
Definition keyed (m : JsMap.t Task) : Prop :=
  Forall (fun e => fst e = id (snd e)) m.

Definition promises_of (m : JsMap.t Task) : list nat :=
  map (fun e => promise (snd e)) m.

Definition flight_promises (fl : list (Task * bool)) : list nat :=
  map (fun f => promise (fst f)) fl.

(** The entries [next()] looks at: those up to the first [@@/flush],
    that one included. *)
Fixpoint before_barrier (m : JsMap.t Task) : JsMap.t Task :=
  match m with
  | [] => []
  | (i, t) :: rest =>
      (i, t) :: (if String.eqb i flush_id then [] else before_barrier rest)
  end.

(** The order the specification gives to priorities: a smaller number
    first, no priority last. *)
Definition outranks (a b : Priority) : bool :=
  match a, b with
  | PNum x, PNum y => x <? y
  | PNum _, _ => true
  | _, _ => false
  end.

(** No queued task was pushed with a literal [null] priority. *)
Definition no_null (m : JsMap.t Task) : Prop :=
  Forall (fun e => priority (snd e) <> PNull) m.

(** The ids the specification lists as reserved sentinels. *)
Definition reserved_in_spec (i : string) : bool :=
  String.prefix "@@/" i || String.eqb i "build/create"
  || String.prefix "snapshot/" i || String.prefix "upload/" i.

(** The sentinel id is pushed the way [flush] pushes it: without a
    priority. *)
Definition sentinel_unprioritised (o : Op) : Prop :=
  match o with
  | OpPush i _ prio => i = flush_id -> prio = PUndefined
  | _ => True
  end.

(** The invariant of the queue and of the runs it started. *)
Record wf (q : Queue) : Prop := mkWf {
  wf_keyed_q : keyed (queued q);
  wf_keyed_p : keyed (pending q);
  wf_nodup_q : NoDup (JsMap.keys (queued q));
  wf_nodup_p : NoDup (JsMap.keys (pending q));
  wf_disjoint : forall k, In k (JsMap.keys (queued q)) ->
                          ~ In k (JsMap.keys (pending q));
  wf_fresh_q : Forall (fun p => (p < fresh q)%nat) (promises_of (queued q));
  wf_fresh_calls : Forall (fun p => (p < fresh q)%nat) (calls q);
  wf_nodup_calls : NoDup (calls q);
  wf_nodup_prom : NoDup (promises_of (queued q));
  wf_uncalled : forall p, In p (promises_of (queued q)) -> ~ In p (calls q);
  wf_flights_called : forall p, In p (flight_promises (flights q)) ->
                                In p (calls q);
  wf_nodup_flights : NoDup (flight_promises (flights q));
  wf_outcomes_called : forall e, In e (outcomes q) -> In (fst e) (calls q);
  wf_pending_flying : forall e, In e (pending q) ->
                                In (snd e, false) (flights q)
}.

(** [pending] holds no more than [c] tasks, [c] being the concurrency. *)
Definition bounded (c : Z) (q : Queue) : Prop :=
  concurrency q = c /\ JsMap.size (pending q) <= c.

(** Every queued [@@/flush] is without priority. *)
Definition sentinel_ok (q : Queue) : Prop :=
  forall e, In e (queued q) -> fst e = flush_id ->
            priority (snd e) = PUndefined.

(** Whenever [@@/flush] was promoted, it was the first entry of [queued]:
    no task queued before it was still waiting. *)
Definition sentinel_in_turn (q : Queue) : Prop :=
  forall t before, In (t, before) (promotions q) -> id t = flush_id ->
                   exists rest, before = (flush_id, t) :: rest.

(** The promise [p] belongs to a task that is no longer queued and whose
    callback was never started. *)
Definition abandoned (p : nat) (q : Queue) : Prop :=
  ~ In p (promises_of (queued q)) /\ ~ In p (calls q) /\ (p < fresh q)%nat.

(** What the barrier property rests on. *)
Definition barrier_inv (q : Queue) : Prop :=
  keyed (queued q) /\ sentinel_ok q /\ sentinel_in_turn q.

(** Two tasks queued on a stopped queue: ["a"] with priority [1], then
    ["b"] with priority [null]. *)
Definition numeric_then_null : Queue :=
  snd (push "b" (CbClient 1) PNull
         (snd (push "a" (CbClient 0) (PNum 1) (stop (new_queue 10))))).

(** A closed queue. *)
Definition closed_queue : Queue := close false (new_queue 10).

(** A queue of concurrency 1 with ["a"] running and ["b"] waiting. *)
Definition one_running_one_waiting : Queue :=
  snd (push "b" (CbClient 1) PUndefined
         (snd (push "a" (CbClient 0) PUndefined (new_queue 1)))).

(** A fresh queue on which [flush] was called. *)
Definition flushed_empty : Queue := snd (flush (new_queue 10)).

End QueueSpec.

(* ===================================================================== *)
(** ** Notions used to state the properties of the logger and of Percy *)
(* ===================================================================== *)

Module LoggerSpec.
Import Logger.

Section WithRuntime.
Context {rt : Runtime}.

(** Some regular expression of [res] matches [dbg]. *)
Definition some_match (res : list string) (dbg : string) : Prop :=
  exists re, In re res /\ regexp_test re dbg = true.

(** The namespace filter rejects [dbg]: no [include] expression matches
    it, or some [exclude] expression does. *)
Definition filter_rejects (lg : Logger) (dbg : string) : Prop :=
  ~ some_match (include (namespaces lg)) dbg
  \/ some_match (exclude (namespaces lg)) dbg.

(** [l] is below the current level. *)
Definition below_level (lg : Logger) (l : Level) : Prop :=
  LOG_LEVELS l < LOG_LEVELS (level lg).
End WithRuntime.

(** A host to run examples on: every source compiles, and an expression
    matches when it is the catch-all [^.*?$] or spells out the subject
    between [^] and [$]. *)
Definition example_runtime : Runtime :=
  {| regexp_valid := fun _ => true;
     regexp_test := fun re s =>
       (String.eqb re "^.*?$"
        || String.eqb re (String.append "^" (String.append s "$")))%bool;
     format := fun _ _ _ message _ => message |}.

End LoggerSpec.

Module PercySpec.
Import Percy.

(** A Percy instance that was never started. *)
Definition not_started : Percy :=
  mkPercy None None false false false (Queue.new_queue 10) (Queue.new_queue 10).

(** A running Percy instance whose build failed. *)
Definition build_failed_run : Percy :=
  mkPercy (Some 1)
          (Some (mkBuild None None None (Some "Failed to create build") false))
          false false false (Queue.new_queue 10) (Queue.new_queue 10).

End PercySpec.

(* ===================================================================== *)
(** ** Further notions for the queue *)
(* ===================================================================== *)

Module QueueMore.
Import Queue QueueSpec.

(** An operation other than [run] and [flush], the two that set
    [running]. *)
Definition not_resuming (o : Op) : Prop :=
  match o with
  | OpRun | OpFlush => False
  | _ => True
  end.

(** A push under an id that does not begin with [@@/]. *)
Definition plain_push (o : Op) : Prop :=
  match o with
  | OpPush i _ _ => String.prefix "@@/" i = false
  | _ => False
  end.

(** Every run in flight whose [cancel()] was not called belongs to the
    task that sits in [pending] under its id. *)
Definition flights_pending (q : Queue) : Prop :=
  forall t, In (t, false) (flights q) -> In (id t, t) (pending q).

(** Three tasks queued on a stopped queue: ["a"] without priority, then
    ["b"] and ["c"] with priority [2]. *)
Definition mixed_priorities : Queue :=
  snd (push "c" (CbClient 2) (PNum 2)
         (snd (push "b" (CbClient 1) (PNum 2)
                 (snd (push "a" (CbClient 0) PUndefined
                         (stop (new_queue 10))))))).

End QueueMore.

(* ===================================================================== *)
(** ** More of the logger *)
(* ===================================================================== *)

Module LoggerMore.
Import Logger.

(** What the [onmessage] handler of [connect] finds in a parsed message:
    the arguments of a [log] call, a list of entries, or both. *)
Record Inbound := mkInbound {
  in_log : option (string * Level * Message * Meta);
  in_logAll : option (list LogEntry)
}.

(** What [JSON.parse] gives back for the message of a packet: a string
    comes back as it was, a serialized error as the plain object
    [{message, stack}]. What is left of an [Error] object sent as it is
    depends on its enumerable properties and is not modelled. *)
Definition received_message (w : WireMessage) : option Message :=
  match w with
  | WireString s => Some (MsgString s)
  | WireSerialized m st => Some (MsgError (mkError m (Some st) "[object Object]"))
  | WireErrorObj _ => None
  end.

(** The parsed form of a [{log: [...]}] packet. *)
Definition received (pk : Packet) : option Inbound :=
  match received_message (pk_message pk) with
  | Some m => Some (mkInbound (Some (pk_debug pk, pk_level pk, m, pk_meta pk)) None)
  | None => None
  end.

Section WithRuntime.
Context {rt : Runtime}.

(** [query(filter)] *)
Definition query (f : LogEntry -> bool) (lg : Logger) : list LogEntry :=
  filter f (messages lg).

(** [deprecated(debug, message, meta)] at time [now]. *)
Definition deprecated (dbg message : string) (meta : Meta) (now : Z)
  (lg : Logger) : Logger :=
  if existsb (String.eqb message) (deprecations lg) then lg
  else
    log dbg LWarn (MsgString (String.append "Warning: " message)) meta now
        (mkLogger (level lg) (namespaces lg) (messages lg)
                  (deprecations lg ++ [message]) (socket lg) (lastlog lg)
                  (_progress lg) (isTTY lg) (stdout lg) (stderr lg)).

(** The [onmessage] handler that [connect] attaches, at time [now]. *)
Definition on_message (data : Inbound) (now : Z) (lg : Logger) : Logger :=
  let lg1 := match in_logAll data with
             | Some entries =>
                 mkLogger (level lg) (namespaces lg) (messages lg ++ entries)
                          (deprecations lg) (socket lg) (lastlog lg)
                          (_progress lg) (isTTY lg) (stdout lg) (stderr lg)
             | None => lg
             end in
  match in_log data with
  | Some (dbg, l, message, meta) => log dbg l message meta now lg1
  | None => lg1
  end.

(** The entries [remote] sends in its [{logAll: [...]}] message: the
    whole store, each entry with [remote: true] put before its meta. *)
Definition logAll_payload (lg : Logger) : list LogEntry :=
  map (fun e => mkEntry (entry_debug e) (entry_level e) (entry_message e)
                        (remote_meta (entry_meta e)) (entry_timestamp e))
      (messages lg).
End WithRuntime.

(** The text [log] stores for [message] at level [l]: an error logged
    at level [error] or [debug] is stored as its stack, any other message
    as its [message] or as what [toString()] gives. *)
Definition stored_text (l : Level) (message : Message) : string :=
  message_text
    (match message with
     | MsgString _ => false
     | MsgError _ => level_eqb l LError || level_eqb l LDebug
     end) message.

(** No character of [s] is a separator of [[\s,]]. *)
Fixpoint sep_free (s : string) : bool :=
  match s with
  | EmptyString => true
  | String c rest => negb (is_sep c) && sep_free rest
  end.

(** No character of [s] is a star. *)
Fixpoint star_free (s : string) : bool :=
  match s with
  | EmptyString => true
  | String c rest => negb (Ascii.eqb c "*") && star_free rest
  end.

(** A logger attached to an open socket. *)
Definition attached : Logger :=
  mkLogger LInfo (mkNamespaces NsUndefined ["^.*?$"] []) [] []
           (Some (mkSocket 1 [])) None None false [] [].

End LoggerMore.

(* ===================================================================== *)
(** ** More of Percy *)
(* ===================================================================== *)

Module PercyMore.
Import Percy.

(** [queue.concurrency = c] *)
Definition set_concurrency (c : Z) (q : Queue.Queue) : Queue.Queue :=
  Queue.mkQueue (Queue.running q) (Queue.closed q) c (Queue.queued q)
                (Queue.pending q) (Queue.flights q) (Queue.outcomes q)
                (Queue.calls q) (Queue.fresh q) (Queue.promotions q).

(** The part of the constructor that sets the flags and the queues.
    The three options are taken by their truthiness; [concurrency] is
    [config.discovery.concurrency], [None] when it is missing. Each queue
    is a [new Queue()], of concurrency 10. *)
Definition construct (dryRun skipUploads deferUploads : bool)
  (concurrency : option Z) : Percy :=
  let dry := dryRun in
  let skip := dry || skipUploads in
  let defer := skip || deferUploads in
  let uploads0 := Queue.new_queue 10 in
  let snapshots0 := Queue.new_queue 10 in
  let uploads1 := if defer then Queue.stop uploads0 else uploads0 in
  let truthy := match concurrency with
                | Some c => negb (c =? 0)
                | None => false
                end in
  let c := match concurrency with Some c => c | None => 0 end in
  mkPercy None None dry skip defer
          (if truthy then set_concurrency c uploads1 else uploads1)
          (if truthy then set_concurrency c snapshots0 else snapshots0).

(** [close()] *)
Definition close (p : Percy) : Percy :=
  mkPercy (readyState p) (build p) (dryRun p) (skipUploads p) (deferUploads p)
          (Queue.close true (uploads p)) (Queue.close true (snapshots p)).

(** A snapshot as [_cancelSnapshot] and [_takeSnapshot] read it: its name
    and the names of its [additionalSnapshots]. *)
Record Snapshot := mkSnapshot {
  snap_name : string;
  additional : list string
}.

Definition snapshot_id (name : string) : string :=
  String.append "snapshot/" name.

Definition upload_id (name : string) : string :=
  String.append "upload/" name.

(** [_cancelSnapshot(snapshot)] *)
Definition _cancelSnapshot (snap : Snapshot) (p : Percy) : Percy :=
  mkPercy (readyState p) (build p) (dryRun p) (skipUploads p) (deferUploads p)
          (fold_left (fun q name => Queue.cancel (upload_id name) q)
                     (snap_name snap :: additional snap) (uploads p))
          (Queue.cancel (snapshot_id (snap_name snap)) (snapshots p)).

(** [_takeSnapshot(snapshot)]: what the push returns, and the instance
    after the call; [f] names the discovery callback. *)
Definition _takeSnapshot (snap : Snapshot) (f : nat) (p : Percy)
  : option nat * Percy :=
  let p1 := _cancelSnapshot snap p in
  let (r, q) := Queue.push (snapshot_id (snap_name snap)) (Queue.CbClient f)
                           Queue.PUndefined (snapshots p1) in
  (r, mkPercy (readyState p1) (build p1) (dryRun p1) (skipUploads p1)
              (deferUploads p1) (uploads p1) q).

(** The result of [_scheduleUpload]: an exception, or what the push
    returned. *)
Inductive Scheduled :=
| SThrows (message : string)
| SReturns (future : option nat).

(** [_scheduleUpload(name, options)]; [f] names the upload callback. *)
Definition _scheduleUpload (name : string) (f : nat) (p : Percy)
  : Scheduled * Percy :=
  if error_set p then
    (SThrows (match build_error_of p with Some e => e | None => "" end), p)
  else
    let (r, q) := Queue.push (upload_id name) (Queue.CbClient f)
                             Queue.PUndefined (uploads p) in
    (SReturns r, mkPercy (readyState p) (build p) (dryRun p) (skipUploads p)
                         (deferUploads p) q (snapshots p)).

(** What the upload callback does once the server answered 422 with an
    error pointing at the build, [detail] being the detail of that error:
    [this.build.error = failed.detail; this.build.failed = true;
    this.close()]. The build exists then, its id having been read for
    the request. *)
Definition build_rejected (detail : option string) (p : Percy) : Percy :=
  match build p with
  | Some b =>
      close (mkPercy (readyState p)
               (Some (mkBuild (build_id b) (build_number b) (build_url b)
                              detail true))
               (dryRun p) (skipUploads p) (deferUploads p)
               (uploads p) (snapshots p))
  | None => p
  end.



Definition build_task_id : string := "build/create".

(** The callback of the [build/create] task begins with
    [this.#uploads.stop()]: when it is started it acts on the queue as the
    callback [flush] pushes from a stopped queue does, by stopping it. The
    rest of it, the request to the client and the [run()] that follows,
    comes later. *)
Definition build_callback : Queue.Callback := Queue.CbFlush true.

(** The beginning of [start()]: the guard on [readyState] and the push of
    the build task at priority 0. *)
Definition start_begin (p : Percy) : Percy :=
  match readyState p with
  | Some _ => p
  | None =>
      mkPercy (Some 0) (build p) (dryRun p) (skipUploads p) (deferUploads p)
              (snd (Queue.push build_task_id build_callback (Queue.PNum 0)
                               (uploads p)))
              (snapshots p)
  end.

(** What [_scheduleUpload] and [_cancelSnapshot] do to the uploads queue:
    pushes without priority and cancellations, under upload ids. *)
Definition upload_op (o : Queue.Op) : Prop :=
  match o with
  | Queue.OpPush i _ prio =>
      (exists name, i = upload_id name) /\ prio = Queue.PUndefined
  | Queue.OpCancel i => exists name, i = upload_id name
  | _ => False
  end.

(** The build task waits at the head of a stopped uploads queue of
    concurrency [c], before tasks without priority, and nothing was started
    yet. *)
Definition build_waiting (c : Z) (u : Queue.Queue) : Prop :=
  Queue.running u = false /\ Queue.closed u = false
  /\ Queue.concurrency u = c /\ Queue.pending u = []
  /\ Queue.calls u = []
  /\ exists rest,
       Queue.queued u
       = (build_task_id,
          Queue.mkTask build_task_id build_callback (Queue.PNum 0) 0) :: rest
       /\ Forall (fun e => Queue.priority (snd e) = Queue.PUndefined) rest.

End PercyMore.

(* ===================================================================== *)
(** ** Choosing a Chromium download ([install.js]) *)
(* ===================================================================== *)

Module Install.

(** [selectByPlatform(map)] for the given [process.platform] and
    [process.arch]; [map] holds the own keys of the object. *)
Definition selectByPlatform {V} (platform arch : string) (map : JsMap.t V)
  : option V :=
  let platform := if (String.eqb platform "win32" && String.eqb arch "x64")%bool
                  then "win64" else platform in
  let platform := if (String.eqb platform "darwin" && String.eqb arch "arm64")%bool
                  then "darwinArm" else platform in
  JsMap.get platform map.

(** [chromium.revisions] *)
Definition revisions : JsMap.t string :=
  [("linux", "885264"); ("win64", "885282"); ("win32", "885263");
   ("darwin", "885263"); ("darwinArm", "885282")].

(** The archive paths of [chromium], after the storage prefix. *)
Definition archives (revision : string) : JsMap.t string :=
  [("linux", String.append "Linux_x64/" (String.append revision "/chrome-linux.zip"));
   ("darwin", String.append "Mac/" (String.append revision "/chrome-mac.zip"));
   ("darwinArm", String.append "Mac_Arm/" (String.append revision "/chrome-mac.zip"));
   ("win64", String.append "Win_x64/" (String.append revision "/chrome-win.zip"));
   ("win32", String.append "Win/" (String.append revision "/chrome-win.zip"))].

(** The executables of [chromium], as the segments given to [path.join]. *)
Definition executables : JsMap.t (list string) :=
  [("linux", ["chrome-linux"; "chrome"]);
   ("win64", ["chrome-win"; "chrome.exe"]);
   ("win32", ["chrome-win"; "chrome.exe"]);
   ("darwin", ["chrome-mac"; "Chromium.app"; "Contents"; "MacOS"; "Chromium"]);
   ("darwinArm", ["chrome-mac"; "Chromium.app"; "Contents"; "MacOS"; "Chromium"])].

Definition is_some {A} (o : option A) : bool :=
  match o with Some _ => true | None => false end.

End Install.

(* ===================================================================== *)
(** ** Facts about [JsMap] *)
(* ===================================================================== *)

Module JsMapFacts.
Import JsMap.

Section Facts.
Context {V : Type}.
Implicit Types (m : JsMap.t V) (k : string) (v : V).

Lemma has_keys k m : has k m = true <-> In k (keys m).
Proof.
  unfold has. induction m as [|[k' v'] m IH]; simpl.
  - split; [discriminate | tauto].
  - destruct (String.eqb k' k) eqn:E.
    + apply String.eqb_eq in E. split; auto.
    + apply String.eqb_neq in E. rewrite IH. split; [auto | intros [H|H]; [congruence | assumption]].
Qed.

Lemma has_false_keys k m : has k m = false <-> ~ In k (keys m).
Proof.
  rewrite <- has_keys. destruct (has k m); split; congruence.
Qed.

Lemma get_in k m v : get k m = Some v -> In (k, v) m.
Proof.
  induction m as [|[k' v'] m IH]; simpl; [discriminate|].
  destruct (String.eqb k' k) eqn:E.
  - apply String.eqb_eq in E. intros [= ->]. subst. auto.
  - auto.
Qed.

Lemma get_none_keys k m : get k m = None <-> ~ In k (keys m).
Proof.
  rewrite <- has_false_keys. unfold has. destruct (get k m); split; congruence.
Qed.

Lemma in_get k v m : NoDup (keys m) -> In (k, v) m -> get k m = Some v.
Proof.
  induction m as [|[k' v'] m IH]; simpl; [tauto|].
  intros ND [H|H].
  - inversion H; subst. now rewrite String.eqb_refl.
  - inversion ND as [|? ? Hn ND']; subst.
    destruct (String.eqb k' k) eqn:E.
    + apply String.eqb_eq in E. subst. exfalso. apply Hn.
      change k with (fst (k, v)). now apply in_map.
    + auto.
Qed.

Lemma in_delete e k m : In e (delete k m) <-> In e m /\ fst e <> k.
Proof.
  unfold delete. rewrite filter_In, negb_true_iff, String.eqb_neq. tauto.
Qed.

Lemma in_keys_delete k' k m :
  In k' (keys (delete k m)) <-> In k' (keys m) /\ k' <> k.
Proof.
  unfold keys. rewrite !in_map_iff. split.
  - intros (e & <- & H). apply in_delete in H. destruct H. eauto.
  - intros ((e & <- & H) & N). exists e. split; auto. apply in_delete. auto.
Qed.

Lemma nodup_keys_delete k m : NoDup (keys m) -> NoDup (keys (delete k m)).
Proof.
  unfold keys, delete. induction m as [|[k' v'] m IH]; simpl; auto.
  intros ND. inversion ND as [|? ? Hn ND']; subst.
  destruct (String.eqb k' k); simpl; auto.
  constructor; auto.
  intros H. apply Hn. apply in_map_iff in H. destruct H as (e & <- & H).
  apply filter_In in H. apply in_map. tauto.
Qed.

Lemma size_delete_le k m : size (delete k m) <= size m.
Proof.
  unfold size, delete. apply inj_le. apply filter_length_le.
Qed.

Lemma size_nonneg m : 0 <= size m.
Proof. unfold size. lia. Qed.

Lemma set_absent k v m : ~ In k (keys m) -> set k v m = m ++ [(k, v)].
Proof.
  induction m as [|[k' v'] m IH]; simpl; auto.
  intros N. destruct (String.eqb k' k) eqn:E.
  - apply String.eqb_eq in E. tauto.
  - f_equal. apply IH. tauto.
Qed.

Lemma in_set e k v m : In e (set k v m) -> e = (k, v) \/ In e m.
Proof.
  induction m as [|[k' v'] m IH]; simpl.
  - intros [H|[]]; auto.
  - destruct (String.eqb k' k); intros [H|H]; auto.
    destruct (IH H); auto.
Qed.

Lemma set_in k v m : In (k, v) (set k v m).
Proof.
  induction m as [|[k' v'] m IH]; simpl; auto.
  destruct (String.eqb k' k); simpl; auto.
Qed.

Lemma keys_set k' k v m :
  In k' (keys (set k v m)) <-> k' = k \/ In k' (keys m).
Proof.
  induction m as [|[k0 v0] m IH]; simpl.
  - split; intros [H|H]; auto; tauto.
  - destruct (String.eqb k0 k) eqn:E; simpl.
    + apply String.eqb_eq in E. subst.
      split; [intros [H|H]; auto | intros [H|[H|H]]; auto].
    + rewrite IH. split; [intros [H|[H|H]]; auto | intros [H|[H|H]]; auto].
Qed.

Lemma nodup_keys_set k v m : NoDup (keys m) -> NoDup (keys (set k v m)).
Proof.
  induction m as [|[k0 v0] m IH]; simpl; intros ND.
  - constructor; [intros [] | constructor].
  - inversion ND as [|? ? Hn ND']; subst.
    destruct (String.eqb k0 k) eqn:E; simpl.
    + apply String.eqb_eq in E. subst. constructor; auto.
    + apply String.eqb_neq in E. constructor; auto.
      intros H. apply keys_set in H. destruct H; auto.
Qed.

Lemma size_set_le k v m : size (set k v m) <= size m + 1.
Proof.
  unfold size. induction m as [|[k0 v0] m IH]; simpl List.length.
  - simpl. lia.
  - destruct (String.eqb k0 k); simpl List.length; lia.
Qed.

Lemma has_set k v m : has k (set k v m) = true.
Proof. apply has_keys, keys_set. auto. Qed.

Lemma has_delete_other k k' m :
  k' <> k -> has k' (delete k m) = has k' m.
Proof.
  intros N. destruct (has k' m) eqn:E.
  - apply has_keys, in_keys_delete. split; auto. now apply has_keys.
  - apply has_false_keys. intros H. apply in_keys_delete in H.
    apply has_false_keys in E. tauto.
Qed.

Lemma has_delete_same k m : has k (delete k m) = false.
Proof.
  apply has_false_keys. intros H. apply in_keys_delete in H. tauto.
Qed.
End Facts.
End JsMapFacts.

(* ===================================================================== *)
(** ** Properties of the queue *)
(* ===================================================================== *)

Module QueueFacts.
Import JsMap JsMapFacts Queue QueueSpec.

(** *** Selection *)

Lemma outranks_irrefl a : outranks a a = false.
Proof. destruct a; simpl; auto. apply Z.ltb_irrefl. Qed.

Lemma outranks_trans a b c :
  outranks a b = true -> outranks b c = true -> outranks a c = true.
Proof.
  destruct a, b, c; simpl; try congruence; auto.
  rewrite !Z.ltb_lt. lia.
Qed.

Lemma outranks_neg_trans a b c :
  outranks a b = false -> outranks b c = false -> outranks a c = false.
Proof.
  destruct a, b, c; simpl; try congruence; auto.
  rewrite !Z.ltb_ge. lia.
Qed.

(** Away from a literal [null], the test of [next()] is the order of the
    specification. *)
Lemma replaces_outranks c t :
  priority t <> PNull ->
  replaces (Some c) t = outranks (priority t) (priority c).
Proof.
  unfold replaces, nullish, js_lt.
  destruct (priority t), (priority c); simpl; try congruence; auto.
Qed.

Lemma scan_first_best t : forall m c,
  no_null m ->
  scan (Some c) m = Some t ->
  (t = c /\ forall e, In e (before_barrier m) ->
                      outranks (priority (snd e)) (priority c) = false)
  \/ (exists pre k post,
        before_barrier m = pre ++ (k, t) :: post
        /\ outranks (priority t) (priority c) = true
        /\ (forall e, In e pre ->
                      outranks (priority t) (priority (snd e)) = true)
        /\ (forall e, In e post ->
                      outranks (priority (snd e)) (priority t) = false)).
Proof.
  induction m as [|[k h] m IH]; intros c NN H; cbn [scan] in H.
  - left. injection H as <-. split; auto. intros e [].
  - inversion NN as [|? ? Hh NN']; subst. simpl in Hh.
    rewrite (replaces_outranks c h Hh) in H.
    simpl before_barrier.
    destruct (outranks (priority h) (priority c)) eqn:R.
    + (* the head becomes the candidate *)
      assert (Hstep : (t = h /\ forall e, In e (if String.eqb k flush_id then [] else before_barrier m) ->
                          outranks (priority (snd e)) (priority h) = false)
              \/ (exists pre k' post,
                    (if String.eqb k flush_id then [] else before_barrier m) = pre ++ (k', t) :: post
                    /\ outranks (priority t) (priority h) = true
                    /\ (forall e, In e pre -> outranks (priority t) (priority (snd e)) = true)
                    /\ (forall e, In e post -> outranks (priority (snd e)) (priority t) = false))).
      { destruct (String.eqb k flush_id).
        - left. injection H as <-. split; auto. intros e [].
        - apply IH; auto. }
      right. destruct Hstep as [[-> Hrest] | (pre & k' & post & E & Hth & Hpre & Hpost)].
      * exists [], k, (if String.eqb k flush_id then [] else before_barrier m).
        repeat split; auto; try (intros ? []).
      * exists ((k, h) :: pre), k', post. rewrite E. repeat split; auto.
        -- eapply outranks_trans; eauto.
        -- intros e [<-|He]; simpl; auto.
    + (* the candidate stays *)
      assert (Hstep : (t = c /\ forall e, In e (if String.eqb k flush_id then [] else before_barrier m) ->
                          outranks (priority (snd e)) (priority c) = false)
              \/ (exists pre k' post,
                    (if String.eqb k flush_id then [] else before_barrier m) = pre ++ (k', t) :: post
                    /\ outranks (priority t) (priority c) = true
                    /\ (forall e, In e pre -> outranks (priority t) (priority (snd e)) = true)
                    /\ (forall e, In e post -> outranks (priority (snd e)) (priority t) = false))).
      { destruct (String.eqb k flush_id).
        - left. injection H as <-. split; auto. intros e [].
        - apply IH; auto. }
      destruct Hstep as [[-> Hrest] | (pre & k' & post & E & Htc & Hpre & Hpost)].
      * left. split; auto. intros e [<-|He]; simpl; auto.
      * right. exists ((k, h) :: pre), k', post. rewrite E. repeat split; auto.
        intros e [<-|He]; simpl; auto.
        destruct (outranks (priority t) (priority h)) eqn:Hth; auto.
        rewrite (outranks_neg_trans _ _ _ Hth R) in Htc. discriminate.
Qed.

(** X2. When no queued task carries a literal [null], [next()] returns the
    first of the best tasks before the barrier: it outranks every task
    scanned before it and is outranked by none scanned after it. So a
    numeric priority goes before a missing one whatever the insertion
    order, and equal priorities go in insertion order. *)
Lemma next_first_best q t :
  no_null (queued q) ->
  next q = Some t ->
  exists pre k post,
    before_barrier (queued q) = pre ++ (k, t) :: post
    /\ (forall e, In e pre -> outranks (priority t) (priority (snd e)) = true)
    /\ (forall e, In e post -> outranks (priority (snd e)) (priority t) = false).
Proof.
  unfold next. destruct (queued q) as [|[k h] m]; simpl; [discriminate|].
  intros NN H. inversion NN as [|? ? _ NN']; subst.
  destruct (String.eqb k flush_id).
  - injection H as <-. exists [], k, []. repeat split; auto; try (intros ? []).
  - destruct (scan_first_best t m h NN' H)
      as [[-> Hrest] | (pre & k' & post & E & Hth & Hpre & Hpost)].
    + exists [], k, (before_barrier m). repeat split; auto; try (intros ? []).
    + exists ((k, h) :: pre), k', post. rewrite E. repeat split; auto.
      intros e [<-|He]; simpl; auto.
Qed.

(** C1. Two tasks are queued before any barrier, ["a"] first with the
    numeric priority [1], then ["b"] with priority [null]: [next()] selects
    ["b"], and [run()] starts the callback of ["b"] before that of ["a"].
    The comparison [task.priority < next.priority] turns [null] into [0]. *)
Theorem next_null_overtakes_numeric :
  let a := mkTask "a" (CbClient 0) (PNum 1) 0 in
  let b := mkTask "b" (CbClient 1) PNull 1 in
  queued numeric_then_null = [("a", a); ("b", b)]
  /\ next numeric_then_null = Some b
  /\ calls (run numeric_then_null) = [promise b; promise a].
Proof. repeat split. Qed.

(** *** [clear] *)

(** C6, as stated, fails: with ["a"] running and ["b"] waiting the queue
    holds two tasks, and [clear()] returns [1], the size left once [queued]
    is emptied, not the size before the call. *)
Lemma clear_returns_size_after :
  size one_running_one_waiting = 2
  /\ fst (clear one_running_one_waiting) = 1
  /\ fst (clear one_running_one_waiting) <> size one_running_one_waiting.
Proof. repeat split. discriminate. Qed.

(** C6, amended. [clear()] empties [queued], leaves [pending] and the runs
    in flight as they are, and returns the size after the call, which is
    the number of pending tasks. *)
Theorem clear_empties_queued q :
  queued (snd (clear q)) = []
  /\ pending (snd (clear q)) = pending q
  /\ flights (snd (clear q)) = flights q
  /\ running (snd (clear q)) = running q
  /\ fst (clear q) = JsMap.size (pending q)
  /\ fst (clear q) = size q - JsMap.size (queued q).
Proof.
  unfold clear, size, set_queued, JsMap.empty, JsMap.size; simpl.
  repeat split; lia.
Qed.

(** *** [push] on a closed queue *)

Lemma has_invoke i t q : has i (invoke t q) = has i q.
Proof. unfold invoke. destruct (callback t) as [|[|]]; reflexivity. Qed.

Lemma scan_in t : forall m c,
  scan c m = Some t -> c = Some t \/ exists k, In (k, t) m.
Proof.
  induction m as [|[k h] m IH]; intros c H; cbn [scan] in H; auto.
  destruct (String.eqb k flush_id).
  - destruct (replaces c h).
    + injection H as <-. right. exists k. now left.
    + auto.
  - destruct (IH _ H) as [E|[k' Hin]].
    + destruct (replaces c h).
      * injection E as <-. right. exists k. now left.
      * auto.
    + right. exists k'. now right.
Qed.

Lemma next_in q t : next q = Some t -> exists k, In (k, t) (queued q).
Proof.
  intros H. destruct (scan_in _ _ _ H) as [E|E]; [discriminate | exact E].
Qed.

Lemma promoted_next q t : promoted q = Some t -> next q = Some t.
Proof.
  unfold promoted. destruct (negb (running q)); [discriminate|].
  destruct (concurrency q <=? JsMap.size (pending q)); [discriminate | auto].
Qed.

(** A queued id is still in the queue after [_dequeue()]: waiting, or
    promoted. *)
Lemma has_dequeue i q :
  JsMap.has i (queued q) = true -> has i (_dequeue q) = true.
Proof.
  intros H. unfold _dequeue. destruct (promoted q) as [t|].
  - unfold promote. rewrite has_invoke. unfold has; simpl.
    destruct (String.eqb (id t) i) eqn:E.
    + apply String.eqb_eq in E. subst. rewrite has_set. apply orb_true_r.
    + apply String.eqb_neq in E. rewrite has_delete_other by congruence.
      now rewrite H.
  - unfold has. now rewrite H.
Qed.

Lemma fresh_invoke t q : fresh (invoke t q) = fresh q.
Proof. unfold invoke. destruct (callback t) as [|[|]]; reflexivity. Qed.

Lemma fresh_dequeue q : fresh (_dequeue q) = fresh q.
Proof.
  unfold _dequeue. destruct (promoted q); auto.
  unfold promote. now rewrite fresh_invoke.
Qed.

Lemma enqueue_has i cb prio q :
  fst (enqueue i cb prio q) = fresh q
  /\ has i (snd (enqueue i cb prio q)) = true
  /\ fresh (snd (enqueue i cb prio q)) = S (fresh q).
Proof.
  unfold enqueue; cbn [fst snd promise].
  repeat split.
  - apply has_dequeue. cbn [queued]. apply has_set.
  - now rewrite fresh_dequeue.
Qed.

(** C5, as stated, fails: [build/create] is one of the ids the
    specification lists as reserved, and a push of it on a closed queue is
    dropped. *)
Lemma push_closed_drops_build_create :
  reserved_in_spec "build/create" = true
  /\ closed closed_queue = true
  /\ push "build/create" (CbClient 0) (PNum 0) closed_queue
     = (None, closed_queue).
Proof. repeat split. Qed.

(** C5, amended. On a closed queue, a push whose id begins with [@@/] is
    not dropped: a promise is returned, it is a new one, and the id is in
    the queue afterwards. A push under any other id, [build/create],
    [snapshot/...] and [upload/...] included, returns [undefined] and
    leaves the queue as it was. *)
Theorem push_closed_queue q i cb prio :
  closed q = true ->
  (String.prefix "@@/" i = true ->
     fst (push i cb prio q) = Some (fresh q)
     /\ has i (snd (push i cb prio q)) = true
     /\ fresh (snd (push i cb prio q)) = S (fresh q))
  /\ (String.prefix "@@/" i = false -> push i cb prio q = (None, q)).
Proof.
  intros C. unfold push. rewrite C.
  split; intros P; rewrite P; cbn [andb negb]; auto.
  destruct (enqueue_has i cb prio q) as (H1 & H2 & H3).
  destruct (enqueue i cb prio q) as [p q']. cbn [fst snd] in *. subst p. auto.
Qed.

Lemma push_closed_queue_witness :
  fst (push flush_id (CbFlush false) PUndefined closed_queue) = Some 0%nat
  /\ push "upload/home" (CbClient 0) PUndefined closed_queue
     = (None, closed_queue).
Proof.
  destruct (push_closed_queue closed_queue flush_id (CbFlush false) PUndefined
              eq_refl) as [H _].
  destruct (push_closed_queue closed_queue "upload/home" (CbClient 0)
              PUndefined eq_refl) as [_ H'].
  split.
  - exact (proj1 (H eq_refl)).
  - exact (H' eq_refl).
Defined.

(** *** The progress reported by [flush] *)

Lemma index_of_ge k ks : -1 <= index_of k ks.
Proof.
  induction ks as [|k' ks IH]; simpl; [lia|].
  destruct (String.eqb k' k); [lia|].
  destruct (index_of k ks =? -1); lia.
Qed.

Lemma index_of_absent k ks : ~ In k ks -> index_of k ks = -1.
Proof.
  induction ks as [|k' ks IH]; simpl; auto.
  intros N. destruct (String.eqb k' k) eqn:E.
  - apply String.eqb_eq in E. tauto.
  - rewrite IH by tauto. reflexivity.
Qed.

Lemma index_of_first k pre post :
  ~ In k pre -> index_of k (pre ++ k :: post) = Z.of_nat (List.length pre).
Proof.
  induction pre as [|k' pre IH]; intros N.
  - simpl. now rewrite String.eqb_refl.
  - cbn [app index_of]. destruct (String.eqb k' k) eqn:E.
    + apply String.eqb_eq in E. subst. exfalso. apply N. now left.
    + rewrite IH by (intros H; apply N; now right).
      destruct (Z.of_nat (List.length pre) =? -1) eqn:E'.
      * apply Z.eqb_eq in E'. lia.
      * cbn [List.length]. lia.
Qed.

(** C7, as stated, fails: after [flush()] on a fresh queue the sentinel is
    pending and is the only pending task; the callback gets [0], where one
    pending task and nothing ahead of the sentinel add up to [1]. *)
Lemma flush_progress_discounts_pending_sentinel :
  JsMap.has flush_id (pending flushed_empty) = true
  /\ JsMap.size (pending flushed_empty) = 1
  /\ flush_progress flushed_empty = 0
  /\ flush_progress flushed_empty <> JsMap.size (pending flushed_empty) + 0.
Proof. repeat split. discriminate. Qed.

(** C7, amended. The callback of [flush] gets the number of pending tasks
    plus: the number of tasks queued ahead of [@@/flush] while it is
    queued; [-1] when it is not queued but pending, so that the sentinel
    itself is not counted; [0] when it is neither. *)
Theorem flush_progress_cases q :
  (forall pre post,
     keys (queued q) = pre ++ flush_id :: post -> ~ In flush_id pre ->
     flush_progress q = JsMap.size (pending q) + Z.of_nat (List.length pre))
  /\ (~ In flush_id (keys (queued q)) ->
      flush_progress q
      = JsMap.size (pending q)
        + (if JsMap.has flush_id (pending q) then -1 else 0)).
Proof.
  unfold flush_progress. split.
  - intros pre post E N. rewrite E, index_of_first by assumption.
    replace (Z.lnot (Z.of_nat (List.length pre)) =? 0) with false; auto.
    symmetry. apply Z.eqb_neq. unfold Z.lnot. lia.
  - intros N. rewrite index_of_absent by assumption.
    simpl. destruct (JsMap.has flush_id (pending q)); reflexivity.
Qed.

(** *** The invariant *)

Lemma nodup_map_inj {A B} (f : A -> B) (l : list A) a b :
  NoDup (map f l) -> In a l -> In b l -> f a = f b -> a = b.
Proof.
  induction l as [|x l IH]; simpl; [tauto|].
  intros ND Ha Hb E. inversion ND as [|? ? Hn ND']; subst.
  destruct Ha as [->|Ha], Hb as [->|Hb]; auto.
  - exfalso. apply Hn. rewrite E. now apply in_map.
  - exfalso. apply Hn. rewrite <- E. now apply in_map.
Qed.

Lemma nodup_map_filter {A B} (f : A -> B) (g : A -> bool) (l : list A) :
  NoDup (map f l) -> NoDup (map f (filter g l)).
Proof.
  induction l as [|x l IH]; simpl; auto.
  intros ND. inversion ND as [|? ? Hn ND']; subst.
  destruct (g x); simpl; auto.
  constructor; auto.
  intros H. apply Hn. apply in_map_iff in H. destruct H as (y & E & Hy).
  apply filter_In in Hy. rewrite <- E. apply in_map. tauto.
Qed.

Lemma in_map_filter {A B} (f : A -> B) (g : A -> bool) (l : list A) b :
  In b (map f (filter g l)) -> In b (map f l).
Proof.
  intros H. apply in_map_iff in H. destruct H as (y & E & Hy).
  apply filter_In in Hy. rewrite <- E. apply in_map. tauto.
Qed.

Lemma keyed_delete k m : keyed m -> keyed (delete k m).
Proof.
  unfold keyed, delete. rewrite !Forall_forall. intros H e He.
  apply filter_In in He. apply H. tauto.
Qed.

Lemma keyed_set t m : keyed m -> keyed (set (id t) t m).
Proof.
  unfold keyed. rewrite !Forall_forall. intros H e He.
  destruct (in_set _ _ _ _ He) as [->|Hin]; auto.
Qed.

Lemma promises_delete p k m :
  In p (promises_of (delete k m)) -> In p (promises_of m).
Proof. apply in_map_filter. Qed.

Lemma promises_set p k t m :
  In p (promises_of (set k t m)) -> p = promise t \/ In p (promises_of m).
Proof.
  unfold promises_of. rewrite !in_map_iff. intros (e & <- & He).
  destruct (in_set _ _ _ _ He) as [->|Hin]; eauto.
Qed.

Lemma flight_promises_trigger p fl :
  flight_promises (trigger p fl) = flight_promises fl.
Proof.
  unfold flight_promises, trigger. rewrite map_map. apply map_ext.
  intros [t b]; simpl. destruct (Nat.eqb (promise t) p); reflexivity.
Qed.

Lemma in_trigger_other f p fl :
  In f fl -> promise (fst f) <> p -> In f (trigger p fl).
Proof.
  intros H N. unfold trigger. apply in_map_iff. exists f.
  apply Nat.eqb_neq in N. rewrite N. auto.
Qed.

Lemma find_flight_in p fl f :
  find_flight p fl = Some f -> In f fl /\ promise (fst f) = p.
Proof.
  induction fl as [|x fl IH]; simpl; [discriminate|].
  destruct (Nat.eqb (promise (fst x)) p) eqn:E.
  - intros [= <-]. apply Nat.eqb_eq in E. auto.
  - intros H. destruct (IH H). auto.
Qed.

Lemma in_remove_flight f p fl :
  In f (remove_flight p fl) <-> In f fl /\ promise (fst f) <> p.
Proof.
  unfold remove_flight. rewrite filter_In, negb_true_iff, Nat.eqb_neq. tauto.
Qed.

Lemma wf_new c : wf (new_queue c).
Proof.
  constructor; simpl; try constructor; try tauto; intros ? [].
Qed.

Lemma wf_set_running b q : wf q -> wf (set_running b q).
Proof. intros []. constructor; assumption. Qed.

Lemma wf_set_closed b q : wf q -> wf (set_closed b q).
Proof. intros []. constructor; assumption. Qed.

Lemma wf_clear q : wf q -> wf (snd (clear q)).
Proof.
  intros []. constructor; simpl; try assumption; try constructor; tauto.
Qed.

Lemma wf_cancel i q : wf q -> wf (cancel i q).
Proof.
  intros W. pose proof W as [].
  assert (FP : flight_promises
                 match get i (pending q) with
                 | Some t => trigger (promise t) (flights q)
                 | None => flights q
                 end = flight_promises (flights q)).
  { destruct (get i (pending q)); auto using flight_promises_trigger. }
  constructor; cbn [cancel set_queued set_pending set_flights queued pending
                    flights outcomes calls fresh]; try rewrite FP; auto.
  - now apply keyed_delete.
  - now apply keyed_delete.
  - now apply nodup_keys_delete.
  - now apply nodup_keys_delete.
  - intros k Hq Hp. apply in_keys_delete in Hq, Hp. firstorder.
  - rewrite Forall_forall in *. intros p Hp. eauto using promises_delete.
  - now apply nodup_map_filter.
  - intros p Hp. eauto using promises_delete.
  - intros e He. apply in_delete in He. destruct He as [He Ne].
    pose proof (wf_pending_flying0 e He) as Hf.
    destruct (get i (pending q)) as [t|] eqn:G; auto.
    apply in_trigger_other; auto. simpl. intros E.
    apply get_in in G. pose proof (wf_pending_flying0 _ G) as Hf'. simpl in Hf'.
    assert (X : (snd e, false) = (t, false)).
    { apply (nodup_map_inj (fun f => promise (fst f)) (flights q)); auto. }
    injection X as X. apply Ne.
    unfold keyed in wf_keyed_p0. rewrite Forall_forall in wf_keyed_p0.
    rewrite (wf_keyed_p0 e He), X. symmetry. exact (wf_keyed_p0 _ G).
Qed.

Lemma wf_add i cb prio q :
  wf q -> ~ In i (keys (queued q)) -> ~ In i (keys (pending q)) ->
  wf (mkQueue (running q) (closed q) (concurrency q)
        (set i (mkTask i cb prio (fresh q)) (queued q)) (pending q)
        (flights q) (outcomes q) (calls q) (S (fresh q)) (promotions q)).
Proof.
  intros W Nq Np. pose proof W as [].
  assert (Fq : forall p, In p (promises_of (queued q)) -> (p < fresh q)%nat).
  { now apply Forall_forall. }
  assert (Fc : forall p, In p (calls q) -> (p < fresh q)%nat).
  { now apply Forall_forall. }
  constructor; cbn [queued pending flights outcomes calls fresh]; auto.
  - apply (keyed_set (mkTask i cb prio (fresh q))). assumption.
  - now apply nodup_keys_set.
  - intros k Hk. apply keys_set in Hk. destruct Hk as [->|Hk]; auto.
  - apply Forall_forall. intros p Hp.
    destruct (promises_set _ _ _ _ Hp) as [->|Hp']; simpl; auto.
    apply Fq in Hp'. lia.
  - apply Forall_forall. intros p Hp. apply Fc in Hp. lia.
  - rewrite set_absent by assumption. unfold promises_of. rewrite map_app.
    simpl. apply NoDup_app; auto.
    + constructor; [intros [] | constructor].
    + intros p Hp [<-|[]]. apply Fq in Hp. lia.
  - intros p Hp Hc. destruct (promises_set _ _ _ _ Hp) as [->|Hp'].
    + apply Fc in Hc. simpl in Hc. lia.
    + exact (wf_uncalled0 p Hp' Hc).
Qed.

Lemma wf_promote t k q :
  wf q -> In (k, t) (queued q) -> wf (promote t q).
Proof.
  intros W Hin. pose proof W as [].
  assert (K : k = id t).
  { unfold keyed in wf_keyed_q0. rewrite Forall_forall in wf_keyed_q0.
    exact (wf_keyed_q0 _ Hin). }
  subst k.
  assert (Hp : In (promise t) (promises_of (queued q))).
  { unfold promises_of. apply in_map_iff. exists (id t, t). auto. }
  assert (Fq : forall p, In p (promises_of (queued q)) -> (p < fresh q)%nat).
  { now apply Forall_forall. }
  assert (Core : wf (mkQueue (running q) (closed q) (concurrency q)
                       (delete (id t) (queued q))
                       (set (id t) t (pending q))
                       (flights q ++ [(t, false)]) (outcomes q)
                       (calls q ++ [promise t]) (fresh q)
                       (promotions q ++ [(t, queued q)]))).
  { constructor; cbn [queued pending flights outcomes calls fresh].
    - now apply keyed_delete.
    - now apply keyed_set.
    - now apply nodup_keys_delete.
    - now apply nodup_keys_set.
    - intros k Hq Hk. apply in_keys_delete in Hq. apply keys_set in Hk.
      destruct Hq as [Hq Ne]. destruct Hk as [->|Hk]; [tauto|].
      exact (wf_disjoint0 k Hq Hk).
    - apply Forall_forall. intros p Hp'. eauto using promises_delete.
    - apply Forall_app. split; auto.
    - apply NoDup_app; auto.
      + constructor; [intros [] | constructor].
      + intros p Hc [<-|[]]. exact (wf_uncalled0 _ Hp Hc).
    - now apply nodup_map_filter.
    - intros p Hp' Hc. apply in_app_or in Hc.
      destruct Hc as [Hc|[<-|[]]].
      + exact (wf_uncalled0 p (promises_delete _ _ _ Hp') Hc).
      + unfold promises_of in Hp'. apply in_map_iff in Hp'.
        destruct Hp' as (e & E & He). apply in_delete in He.
        destruct He as [He Ne]. apply Ne.
        assert (X : e = (id t, t)).
        { apply (nodup_map_inj (fun e => promise (snd e)) (queued q)); auto. }
        now rewrite X.
    - intros p Hf. unfold flight_promises in Hf. rewrite map_app in Hf.
      apply in_or_app. apply in_app_or in Hf. destruct Hf as [Hf|Hf]; auto.
    - unfold flight_promises. rewrite map_app. simpl. apply NoDup_app; auto.
      + constructor; [intros [] | constructor].
      + intros p Hf [<-|[]]. exact (wf_uncalled0 _ Hp (wf_flights_called0 _ Hf)).
    - intros e He. apply in_or_app. auto.
    - intros e He. apply in_or_app.
      destruct (in_set _ _ _ _ He) as [->|He']; simpl; auto. }
  unfold promote, invoke. cbn [set_queued set_pending queued pending running
                                closed concurrency flights outcomes calls fresh
                                promotions].
  destruct (callback t) as [|[|]]; auto.
  unfold stop. now apply wf_set_running.
Qed.

Lemma wf_dequeue q : wf q -> wf (_dequeue q).
Proof.
  intros W. unfold _dequeue. destruct (promoted q) as [t|] eqn:P; auto.
  destruct (next_in _ _ (promoted_next _ _ P)) as [k Hin].
  eapply wf_promote; eauto.
Qed.

Lemma wf_enqueue i cb prio q : wf q -> wf (snd (enqueue i cb prio q)).
Proof.
  intros W. unfold enqueue. cbn [snd]. apply wf_dequeue.
  apply (wf_add i cb prio (cancel i q)).
  - now apply wf_cancel.
  - simpl. intros H. apply in_keys_delete in H. tauto.
  - simpl. intros H. apply in_keys_delete in H. tauto.
Qed.

Lemma wf_push i cb prio q : wf q -> wf (snd (push i cb prio q)).
Proof.
  intros W. unfold push.
  destruct (closed q && negb (String.prefix "@@/" i)); auto.
  pose proof (wf_enqueue i cb prio q W).
  destruct (enqueue i cb prio q); auto.
Qed.

Lemma wf_run_loop fuel : forall q, wf q -> wf (run_loop fuel q).
Proof.
  induction fuel as [|fuel IH]; intros q W; simpl; auto.
  destruct (run_cond q); auto using wf_dequeue.
Qed.

Lemma wf_run q : wf q -> wf (run q).
Proof. intros W. unfold run. now apply wf_run_loop, wf_set_running. Qed.

Lemma wf_settle p o q : wf q -> wf (settle p o q).
Proof.
  intros W. unfold settle.
  destruct (find_flight p (flights q)) as [[t trig]|] eqn:F; auto.
  apply find_flight_in in F. destruct F as [Fin Fp]. simpl in Fp.
  apply wf_dequeue. pose proof W as [].
  assert (Kp : forall e, In e (pending q) -> fst e = id (snd e)).
  { now apply Forall_forall. }
  constructor; destruct trig;
    cbn [negb set_pending queued pending flights outcomes calls fresh]; auto;
    try (now apply keyed_delete); try (now apply nodup_keys_delete);
    try (intros k Hq Hk; apply in_keys_delete in Hk; firstorder);
    try (intros q' Hq; apply wf_flights_called0;
         exact (in_map_filter _ _ _ _ Hq));
    try (now apply nodup_map_filter).
  - intros e He. apply in_app_or in He. destruct He as [He|[<-|[]]]; auto.
    simpl. apply wf_flights_called0. unfold flight_promises.
    apply in_map_iff. exists (t, true). auto.
  - intros e He. apply in_app_or in He. destruct He as [He|[<-|[]]]; auto.
    simpl. apply wf_flights_called0. unfold flight_promises.
    apply in_map_iff. exists (t, false). auto.
  - intros e He. apply in_remove_flight. split; auto. simpl. intros E.
    assert (X : (snd e, false) = (t, true)).
    { apply (nodup_map_inj (fun f => promise (fst f)) (flights q)); auto.
      simpl. congruence. }
    discriminate.
  - intros e He. apply in_delete in He. destruct He as [He Ne].
    apply in_remove_flight. split; auto. simpl. intros E.
    assert (X : (snd e, false) = (t, false)).
    { apply (nodup_map_inj (fun f => promise (fst f)) (flights q)); auto.
      simpl. congruence. }
    injection X as X. apply Ne. rewrite (Kp e He). now rewrite X.
Qed.

Lemma wf_step o q : wf q -> wf (step o q).
Proof.
  intros W. destruct o; simpl.
  - now apply wf_push.
  - now apply wf_cancel.
  - now apply wf_clear.
  - now apply wf_run.
  - now apply wf_set_running.
  - now apply wf_set_closed.
  - unfold close. apply wf_set_closed. destruct abort; auto.
    apply wf_clear. now apply wf_set_running.
  - unfold flush. apply wf_push. now apply wf_run.
  - unfold flush_canceled. apply wf_cancel. destruct stopped; auto.
    now apply wf_set_running.
  - now apply wf_settle.
Qed.

Lemma exec_invariant (P : Queue -> Prop) (R : Op -> Prop) :
  (forall o q, R o -> P q -> P (step o q)) ->
  forall ops q, Forall R ops -> P q -> P (exec ops q).
Proof.
  intros Hstep. unfold exec. induction ops as [|o ops IH]; intros q HR HP; simpl; auto.
  inversion HR; subst. apply IH; auto.
Qed.

Lemma wf_exec ops q : wf q -> wf (exec ops q).
Proof.
  intros W. apply (exec_invariant wf (fun _ => True)); auto.
  - intros. now apply wf_step.
  - apply Forall_forall. auto.
Qed.

(** *** Capacity *)

Lemma concurrency_invoke t q : concurrency (invoke t q) = concurrency q.
Proof. unfold invoke. destruct (callback t) as [|[|]]; reflexivity. Qed.

Lemma pending_invoke t q : pending (invoke t q) = pending q.
Proof. unfold invoke. destruct (callback t) as [|[|]]; reflexivity. Qed.

Lemma bounded_dequeue c q : bounded c q -> bounded c (_dequeue q).
Proof.
  intros [C B]. unfold _dequeue. destruct (promoted q) as [t|] eqn:P.
  - unfold promoted in P. destruct (negb (running q)); [discriminate|].
    destruct (concurrency q <=? JsMap.size (pending q)) eqn:G; [discriminate|].
    apply Z.leb_gt in G. unfold bounded, promote.
    rewrite concurrency_invoke, pending_invoke. simpl. split; auto.
    pose proof (size_set_le (id t) t (pending q)). lia.
  - now split.
Qed.

Lemma bounded_cancel c i q : bounded c q -> bounded c (cancel i q).
Proof.
  intros [C B]. split; simpl; auto.
  pose proof (size_delete_le i (pending q)). lia.
Qed.

Lemma bounded_push c i cb prio q :
  bounded c q -> bounded c (snd (push i cb prio q)).
Proof.
  intros H. unfold push.
  destruct (closed q && negb (String.prefix "@@/" i)); auto.
  unfold enqueue. cbn [snd]. apply bounded_dequeue.
  apply (bounded_cancel c i q) in H. exact H.
Qed.

Lemma bounded_run_loop c fuel : forall q, bounded c q -> bounded c (run_loop fuel q).
Proof.
  induction fuel as [|fuel IH]; intros q H; simpl; auto.
  destruct (run_cond q); auto using bounded_dequeue.
Qed.

Lemma bounded_settle c p o q : bounded c q -> bounded c (settle p o q).
Proof.
  intros [C B]. unfold settle.
  destruct (find_flight p (flights q)) as [[t trig]|]; [|now split].
  apply bounded_dequeue. destruct trig; split; simpl; auto.
  pose proof (size_delete_le (id t) (pending q)). lia.
Qed.

Lemma bounded_step c o q : bounded c q -> bounded c (step o q).
Proof.
  intros H. destruct o; simpl.
  - now apply bounded_push.
  - now apply bounded_cancel.
  - exact H.
  - unfold run. apply bounded_run_loop. exact H.
  - exact H.
  - exact H.
  - unfold close. destruct abort; exact H.
  - unfold flush. apply bounded_push. unfold run. apply bounded_run_loop. exact H.
  - unfold flush_canceled. apply bounded_cancel. destruct stopped; exact H.
  - now apply bounded_settle.
Qed.

(** C3. From a new queue of concurrency [c], after any sequence of calls
    of [push], [cancel], [clear], [run], [stop], [open], [close] and
    [flush], interleaved in any way with the settling of started tasks,
    no id is both in [queued] and in [pending], and [pending] holds at
    most [c] tasks. *)
Theorem disjoint_and_bounded c ops :
  0 <= c ->
  (forall i, ~ (JsMap.has i (queued (exec ops (new_queue c))) = true
                /\ JsMap.has i (pending (exec ops (new_queue c))) = true))
  /\ JsMap.size (pending (exec ops (new_queue c)))
     <= concurrency (exec ops (new_queue c))
  /\ concurrency (exec ops (new_queue c)) = c.
Proof.
  intros Hc. split.
  - intros i [Hq Hp]. rewrite has_keys in Hq, Hp.
    exact (wf_disjoint _ (wf_exec ops _ (wf_new c)) i Hq Hp).
  - assert (B : bounded c (exec ops (new_queue c))).
    { apply (exec_invariant (bounded c) (fun _ => True)).
      - intros. now apply bounded_step.
      - apply Forall_forall. auto.
      - split; simpl; auto. }
    destruct B as [C B]. rewrite C. auto.
Qed.

Lemma disjoint_and_bounded_witness :
  JsMap.size (pending (exec [OpPush "a" 0 PUndefined; OpPush "b" 1 (PNum 2);
                             OpPush "a" 2 PUndefined; OpClear; OpCancel "a"]
                            (new_queue 1)))
  <= concurrency (exec [OpPush "a" 0 PUndefined; OpPush "b" 1 (PNum 2);
                        OpPush "a" 2 PUndefined; OpClear; OpCancel "a"]
                       (new_queue 1)).
Proof.
  refine (proj1 (proj2 (disjoint_and_bounded 1 _ _))). lia.
Defined.

(** *** The flush barrier *)

Lemma scan_replaced t : forall m c,
  scan (Some c) m = Some t ->
  t = c \/ exists k c', In (k, t) m /\ replaces (Some c') t = true.
Proof.
  induction m as [|[k h] m IH]; intros c H; cbn [scan] in H.
  - left. congruence.
  - destruct (replaces (Some c) h) eqn:R.
    + destruct (String.eqb k flush_id).
      * injection H as <-. right. exists k, c. split; auto. now left.
      * destruct (IH _ H) as [->|(k' & c' & Hin & R')].
        -- right. exists k, c. split; auto. now left.
        -- right. exists k', c'. split; auto. now right.
    + destruct (String.eqb k flush_id).
      * left. congruence.
      * destruct (IH _ H) as [->|(k' & c' & Hin & R')]; auto.
        right. exists k', c'. split; auto. now right.
Qed.

(** A task without priority never replaces a candidate. *)
Lemma replaces_undefined c t :
  priority t = PUndefined -> replaces (Some c) t = false.
Proof. unfold replaces, js_lt. intros ->. reflexivity. Qed.

(** If [next()] returns the sentinel, the sentinel is the first entry of
    [queued]. *)
Lemma next_sentinel_head q t :
  keyed (queued q) -> sentinel_ok q ->
  next q = Some t -> id t = flush_id ->
  exists rest, queued q = (flush_id, t) :: rest.
Proof.
  unfold next, sentinel_ok, keyed. rewrite Forall_forall.
  destruct (queued q) as [|[k h] m]; [discriminate|].
  intros K S H I. cbn [scan replaces] in H.
  assert (Kh : k = id h) by (apply (K (k, h)); now left).
  destruct (String.eqb k flush_id) eqn:E.
  - injection H as <-. apply String.eqb_eq in E. rewrite E. eauto.
  - apply String.eqb_neq in E.
    destruct (scan_replaced _ _ _ H) as [->|(k' & c' & Hin & R)].
    + congruence.
    + assert (Kt : k' = id t) by (apply (K (k', t)); now right).
      assert (P : priority t = PUndefined).
      { apply (S (k', t)); [now right | simpl; congruence]. }
      rewrite (replaces_undefined c' t P) in R. discriminate.
Qed.

Lemma queued_invoke t q : queued (invoke t q) = queued q.
Proof. unfold invoke. destruct (callback t) as [|[|]]; reflexivity. Qed.

Lemma promotions_invoke t q : promotions (invoke t q) = promotions q.
Proof. unfold invoke. destruct (callback t) as [|[|]]; reflexivity. Qed.

Lemma barrier_dequeue q : barrier_inv q -> barrier_inv (_dequeue q).
Proof.
  intros (K & S & T). unfold _dequeue.
  destruct (promoted q) as [t|] eqn:P; [|repeat split; assumption].
  unfold barrier_inv, sentinel_ok, sentinel_in_turn, promote.
  rewrite queued_invoke, promotions_invoke. simpl. repeat split.
  - now apply keyed_delete.
  - intros e He. apply in_delete in He. apply S. tauto.
  - intros t' before Hin I. apply in_app_or in Hin.
    destruct Hin as [Hin|[[= <- <-]|[]]]; eauto.
    apply next_sentinel_head; auto using promoted_next.
Qed.

Lemma barrier_cancel i q : barrier_inv q -> barrier_inv (cancel i q).
Proof.
  intros (K & S & T). repeat split; simpl; auto.
  - now apply keyed_delete.
  - intros e He. apply in_delete in He. apply S. tauto.
Qed.

Lemma barrier_push i cb prio q :
  (i = flush_id -> prio = PUndefined) ->
  barrier_inv q -> barrier_inv (snd (push i cb prio q)).
Proof.
  intros D H. unfold push.
  destruct (closed q && negb (String.prefix "@@/" i)); auto.
  unfold enqueue. cbn [snd]. apply barrier_dequeue.
  destruct (barrier_cancel i q H) as (K & S & T).
  repeat split; auto.
  - apply (keyed_set (mkTask i cb prio (fresh (cancel i q)))). exact K.
  - intros e He I. cbn [queued] in He.
    destruct (in_set _ _ _ _ He) as [->|He']; auto.
Qed.

Lemma barrier_run_loop fuel : forall q, barrier_inv q -> barrier_inv (run_loop fuel q).
Proof.
  induction fuel as [|fuel IH]; intros q H; simpl; auto.
  destruct (run_cond q); auto using barrier_dequeue.
Qed.

Lemma barrier_settle p o q : barrier_inv q -> barrier_inv (settle p o q).
Proof.
  intros H. unfold settle.
  destruct (find_flight p (flights q)) as [[t trig]|]; auto.
  apply barrier_dequeue. destruct trig; exact H.
Qed.

Lemma barrier_step o q :
  sentinel_unprioritised o -> barrier_inv q -> barrier_inv (step o q).
Proof.
  intros D H. destruct o; simpl.
  - now apply barrier_push.
  - now apply barrier_cancel.
  - destruct H as (K & S & T). repeat split; auto.
    + constructor.
    + intros e [].
  - unfold run. apply barrier_run_loop. exact H.
  - exact H.
  - exact H.
  - unfold close. destruct abort; [|exact H].
    destruct H as (K & S & T). repeat split; auto.
    + constructor.
    + intros e [].
  - unfold flush. apply barrier_push; auto.
    unfold run. apply barrier_run_loop. exact H.
  - unfold flush_canceled. apply barrier_cancel. destruct stopped; exact H.
  - now apply barrier_settle.
Qed.

Lemma barrier_new c : barrier_inv (new_queue c).
Proof.
  repeat split.
  - constructor.
  - intros e [].
  - intros t before [].
Qed.

(** C2. Take any sequence of operations in which the sentinel id is only
    pushed without a priority, as [flush] does. Every time [_dequeue]
    promoted [@@/flush], it was the first entry of [queued], so no task
    queued before it was still waiting; the same holds of the promotion
    [_dequeue] would do next. The sentinel may nevertheless be pending
    together with an earlier task: on a queue of concurrency 2, after a
    push of ["a"] and a [flush], both are pending. *)
Theorem flush_never_overtakes c ops :
  Forall sentinel_unprioritised ops ->
  (forall t before,
     In (t, before) (promotions (exec ops (new_queue c))) ->
     id t = flush_id ->
     exists rest, before = (flush_id, t) :: rest)
  /\ (forall t,
       promoted (exec ops (new_queue c)) = Some t -> id t = flush_id ->
       exists rest, queued (exec ops (new_queue c)) = (flush_id, t) :: rest)
  /\ keys (pending (exec [OpPush "a" 0 PUndefined; OpFlush] (new_queue 2)))
     = ["a"; flush_id].
Proof.
  intros D.
  assert (B : barrier_inv (exec ops (new_queue c))).
  { apply (exec_invariant barrier_inv sentinel_unprioritised); auto.
    - apply barrier_step.
    - apply barrier_new. }
  destruct B as (K & S & T). repeat split; auto.
  intros t P I. apply next_sentinel_head; auto using promoted_next.
Qed.

Lemma flush_never_overtakes_witness :
  Forall sentinel_unprioritised
    [OpStop; OpPush "a" 0 PUndefined; OpPush "b" 1 (PNum 3); OpFlush]
  /\ (forall t before,
        In (t, before)
           (promotions (exec [OpStop; OpPush "a" 0 PUndefined;
                              OpPush "b" 1 (PNum 3); OpFlush] (new_queue 1))) ->
        id t = flush_id ->
        exists rest, before = (flush_id, t) :: rest).
Proof.
  assert (D : Forall sentinel_unprioritised
                [OpStop; OpPush "a" 0 PUndefined; OpPush "b" 1 (PNum 3);
                 OpFlush]).
  { repeat constructor; simpl; discriminate. }
  split; [exact D|].
  exact (proj1 (flush_never_overtakes 1 _ D)).
Defined.

(** *** [run] terminates *)

Lemma length_delete_lt k (m : JsMap.t Task) :
  In k (keys m) -> (List.length (delete k m) < List.length m)%nat.
Proof.
  unfold delete, keys. induction m as [|[k' v] m IH]; simpl; [tauto|].
  intros [->|H].
  - rewrite String.eqb_refl. simpl.
    pose proof (filter_length_le (fun e => negb (String.eqb (fst e) k)) m). lia.
  - destruct (String.eqb k' k); simpl.
    + pose proof (filter_length_le (fun e => negb (String.eqb (fst e) k)) m). lia.
    + apply IH in H. lia.
Qed.

Lemma scan_some : forall m c, exists t, scan (Some c) m = Some t.
Proof.
  induction m as [|[k h] m IH]; intros c; cbn [scan]; eauto.
  destruct (replaces (Some c) h), (String.eqb k flush_id); eauto.
Qed.

(** While the condition of the loop holds, [_dequeue] promotes a task. *)
Lemma run_cond_promotes q :
  run_cond q = true -> exists t, promoted q = Some t.
Proof.
  unfold run_cond, promoted. intros H.
  apply andb_true_iff in H. destruct H as [H Hp].
  apply andb_true_iff in H. destruct H as [Hr Hq].
  rewrite Hr. simpl. apply Z.ltb_lt in Hp, Hq.
  replace (concurrency q <=? JsMap.size (pending q)) with false
    by (symmetry; apply Z.leb_gt; lia).
  unfold next. destruct (queued q) as [|[k h] m].
  - unfold JsMap.size in Hq. simpl in Hq. lia.
  - cbn [scan replaces]. destruct (String.eqb k flush_id); eauto using scan_some.
Qed.

Lemma run_loop_exits fuel : forall q,
  keyed (queued q) -> (List.length (queued q) <= fuel)%nat ->
  run_cond (run_loop fuel q) = false.
Proof.
  induction fuel as [|fuel IH]; intros q K L; cbn [run_loop].
  - unfold run_cond. destruct (queued q); [|simpl in L; lia].
    simpl. now rewrite andb_false_r.
  - destruct (run_cond q) eqn:C; auto.
    destruct (run_cond_promotes q C) as [t P].
    destruct (next_in _ _ (promoted_next _ _ P)) as [k Hin].
    assert (Kt : k = id t).
    { unfold keyed in K. rewrite Forall_forall in K. exact (K _ Hin). }
    unfold _dequeue. rewrite P. apply IH.
    + unfold promote. rewrite queued_invoke. simpl. now apply keyed_delete.
    + unfold promote. rewrite queued_invoke. simpl.
      assert (Hk : In (id t) (keys (queued q))).
      { subst k. unfold keys. apply in_map_iff. exists (id t, t). auto. }
      apply length_delete_lt in Hk. lia.
Qed.

(** The number of iterations [run] is given is enough: when [run]
    returns, the condition of its loop is false. *)
Lemma run_terminates q : keyed (queued q) -> run_cond (run q) = false.
Proof.
  intros K. unfold run. apply run_loop_exits; auto.
Qed.

(** *** Cancellation *)

Lemma has_cancel i q : has i (cancel i q) = false.
Proof.
  unfold has; simpl. now rewrite !has_delete_same.
Qed.

Lemma find_flight_trigger t fl :
  NoDup (flight_promises fl) -> In (t, false) fl ->
  find_flight (promise t) (trigger (promise t) fl) = Some (t, true).
Proof.
  induction fl as [|x fl IH]; simpl; [tauto|].
  intros ND Hin. inversion ND as [|? ? Hn ND']; subst.
  destruct (Nat.eqb (promise (fst x)) (promise t)) eqn:E; simpl.
  - rewrite E. destruct Hin as [->|Hin]; auto.
    exfalso. apply Hn. apply Nat.eqb_eq in E. rewrite E.
    unfold flight_promises. apply in_map_iff. exists (t, false). auto.
  - rewrite E. destruct Hin as [->|Hin]; auto.
    simpl in E. rewrite Nat.eqb_refl in E. discriminate.
Qed.

Lemma find_flight_app p fl fl' f :
  find_flight p fl = Some f -> find_flight p (fl ++ fl') = Some f.
Proof.
  induction fl as [|x fl IH]; simpl; [discriminate|].
  destruct (Nat.eqb (promise (fst x)) p); auto.
Qed.

Lemma find_flight_none p fl :
  ~ In p (flight_promises fl) -> find_flight p fl = None.
Proof.
  induction fl as [|x fl IH]; simpl; auto.
  intros N. destruct (Nat.eqb (promise (fst x)) p) eqn:E.
  - apply Nat.eqb_eq in E. tauto.
  - apply IH. tauto.
Qed.

(** Cancelling a pending task calls its [cancel()]. *)
Lemma cancel_triggers i t q :
  wf q -> get i (pending q) = Some t ->
  find_flight (promise t) (flights (cancel i q)) = Some (t, true).
Proof.
  intros W G. simpl. rewrite G. apply find_flight_trigger.
  - apply (wf_nodup_flights _ W).
  - apply get_in in G. exact (wf_pending_flying _ W _ G).
Qed.

Lemma outcomes_invoke t q : outcomes (invoke t q) = outcomes q.
Proof. unfold invoke. destruct (callback t) as [|[|]]; reflexivity. Qed.

Lemma outcomes_dequeue q : outcomes (_dequeue q) = outcomes q.
Proof.
  unfold _dequeue. destruct (promoted q); auto.
  unfold promote. now rewrite outcomes_invoke.
Qed.

(** A run whose [cancel()] was called settles as canceled, whatever its
    callback does. *)
Lemma settle_triggered p o t q :
  find_flight p (flights q) = Some (t, true) ->
  outcomes (settle p o q) = outcomes q ++ [(p, RejectedCanceled)].
Proof.
  intros F. unfold settle. rewrite F. now rewrite outcomes_dequeue.
Qed.

Lemma flights_invoke t q : flights (invoke t q) = flights q ++ [(t, false)].
Proof. unfold invoke. destruct (callback t) as [|[|]]; reflexivity. Qed.

Lemma find_flight_dequeue p f q :
  find_flight p (flights q) = Some f ->
  find_flight p (flights (_dequeue q)) = Some f.
Proof.
  intros F. unfold _dequeue. destruct (promoted q); auto.
  unfold promote. rewrite flights_invoke. simpl. now apply find_flight_app.
Qed.

Lemma calls_invoke t q : calls (invoke t q) = calls q ++ [promise t].
Proof. unfold invoke. destruct (callback t) as [|[|]]; reflexivity. Qed.

Lemma abandoned_dequeue p q : abandoned p q -> abandoned p (_dequeue q).
Proof.
  intros (Hq & Hc & Hf). unfold _dequeue.
  destruct (promoted q) as [t|] eqn:P; [|repeat split; assumption].
  destruct (next_in _ _ (promoted_next _ _ P)) as [k Hin].
  unfold abandoned, promote.
  rewrite queued_invoke, calls_invoke, fresh_invoke. simpl. repeat split; auto.
  - intros H. apply Hq. eauto using promises_delete.
  - intros H. apply in_app_or in H. destruct H as [H|[<-|[]]]; auto.
    apply Hq. unfold promises_of. apply in_map_iff. exists (k, t). auto.
Qed.

Lemma abandoned_cancel p i q : abandoned p q -> abandoned p (cancel i q).
Proof.
  intros (Hq & Hc & Hf). repeat split; simpl; auto.
  intros H. apply Hq. eauto using promises_delete.
Qed.

Lemma abandoned_add p i cb prio q :
  abandoned p q -> abandoned p (add_task i cb prio q).
Proof.
  intros (Hq & Hc & Hf). repeat split; cbn [add_task queued calls fresh]; auto.
  intros Hin. destruct (promises_set _ _ _ _ Hin) as [E|Hin']; auto.
  simpl in E. lia.
Qed.

Lemma abandoned_push p i cb prio q :
  abandoned p q -> abandoned p (snd (push i cb prio q)).
Proof.
  intros H. unfold push.
  destruct (closed q && negb (String.prefix "@@/" i)); auto.
  unfold enqueue. cbn [snd].
  now apply abandoned_dequeue, abandoned_add, abandoned_cancel.
Qed.

Lemma abandoned_run_loop p fuel :
  forall q, abandoned p q -> abandoned p (run_loop fuel q).
Proof.
  induction fuel as [|fuel IH]; intros q H; simpl; auto.
  destruct (run_cond q); auto using abandoned_dequeue.
Qed.

Lemma abandoned_step p o q : abandoned p q -> abandoned p (step o q).
Proof.
  intros H. destruct o; simpl.
  - now apply abandoned_push.
  - now apply abandoned_cancel.
  - destruct H as (Hq & Hc & Hf). repeat split; auto.
  - unfold run. apply abandoned_run_loop. exact H.
  - exact H.
  - exact H.
  - unfold close. destruct abort; [|exact H].
    destruct H as (Hq & Hc & Hf). repeat split; auto.
  - unfold flush. apply abandoned_push. unfold run.
    apply abandoned_run_loop. exact H.
  - unfold flush_canceled. apply abandoned_cancel. destruct stopped; exact H.
  - unfold settle. destruct (find_flight p0 (flights q)) as [[t trig]|]; auto.
    apply abandoned_dequeue. destruct trig; exact H.
Qed.

Lemma abandoned_exec p ops q : abandoned p q -> abandoned p (exec ops q).
Proof.
  intros H. apply (exec_invariant (abandoned p) (fun _ => True)); auto.
  - intros. now apply abandoned_step.
  - apply Forall_forall. auto.
Qed.

(** An abandoned task never runs and its promise is never settled. *)
Lemma abandoned_never_settles p q :
  wf q -> abandoned p q ->
  outcome_of p q = None /\ ~ In p (calls q)
  /\ find_flight p (flights q) = None.
Proof.
  intros W (Hq & Hc & Hf). repeat split; auto.
  - unfold outcome_of.
    destruct (find (fun e => Nat.eqb (fst e) p) (outcomes q)) as [e|] eqn:F; auto.
    apply find_some in F. destruct F as [Hin E]. apply Nat.eqb_eq in E.
    exfalso. apply Hc. rewrite <- E. exact (wf_outcomes_called _ W _ Hin).
  - apply find_flight_none. intros H. apply Hc.
    exact (wf_flights_called _ W _ H).
Qed.

(** Cancelling a task that is only queued abandons it. *)
Lemma cancel_abandons i t q :
  wf q -> get i (queued q) = Some t -> abandoned (promise t) (cancel i q).
Proof.
  intros W G. apply get_in in G.
  assert (Hp : In (promise t) (promises_of (queued q))).
  { unfold promises_of. apply in_map_iff. exists (i, t). auto. }
  repeat split; simpl.
  - intros H. unfold promises_of in H. apply in_map_iff in H.
    destruct H as (e & E & He). apply in_delete in He. destruct He as [He Ne].
    apply Ne.
    assert (X : e = (i, t)).
    { apply (nodup_map_inj (fun e => promise (snd e)) (queued q)); auto.
      exact (wf_nodup_prom _ W). }
    now rewrite X.
  - exact (wf_uncalled _ W _ Hp).
  - pose proof (wf_fresh_q _ W) as F. rewrite Forall_forall in F. auto.
Qed.

Lemma wf_one_running_one_waiting : wf one_running_one_waiting.
Proof. unfold one_running_one_waiting. auto using wf_push, wf_new. Qed.

(** C4, as stated, fails: ["b"] waits in [queued] behind the running
    ["a"]; after [cancel("b")] no run of it exists whose failure could
    reject its promise, and whatever happens to the queue afterwards the
    promise of ["b"] is never settled, so it is never rejected. *)
Lemma cancel_queued_never_rejects :
  get "b" (queued one_running_one_waiting)
  = Some (mkTask "b" (CbClient 1) PUndefined 1)
  /\ get "b" (pending one_running_one_waiting) = None
  /\ forall more,
       outcome_of 1 (exec more (cancel "b" one_running_one_waiting))
       <> Some RejectedCanceled.
Proof.
  repeat split. intros more.
  assert (A : abandoned 1 (cancel "b" one_running_one_waiting)).
  { apply (cancel_abandons "b" (mkTask "b" (CbClient 1) PUndefined 1)).
    - apply wf_one_running_one_waiting.
    - reflexivity. }
  assert (W : wf (exec more (cancel "b" one_running_one_waiting))).
  { apply wf_exec, wf_cancel, wf_one_running_one_waiting. }
  destruct (abandoned_never_settles _ _ W (abandoned_exec _ more _ A)) as (E & _).
  rewrite E. discriminate.
Qed.

Lemma push_accepted i cb prio q p :
  fst (push i cb prio q) = Some p ->
  p = fresh q /\ snd (push i cb prio q) = _dequeue (add_task i cb prio (cancel i q)).
Proof.
  unfold push. destruct (closed q && negb (String.prefix "@@/" i)).
  - discriminate.
  - unfold enqueue. cbn [fst snd]. intros [= <-]. auto.
Qed.

(** C4, amended. In any state reached from a new queue, [cancel(id)]
    removes [id] from both maps. If the task was pending, its [cancel()]
    is called, and when its run settles its promise is rejected as
    canceled. If the task was only queued, it is dropped: it never runs and
    its promise is never settled. In particular a push under an id already
    in the queue treats the older task in that way, and the callback of
    the new task, like any callback, is started at most once. *)
Theorem cancel_removes_and_signals c ops i :
  has i (cancel i (exec ops (new_queue c))) = false
  /\ (forall t,
       get i (pending (exec ops (new_queue c))) = Some t ->
       find_flight (promise t) (flights (cancel i (exec ops (new_queue c))))
       = Some (t, true)
       /\ forall o,
            outcomes (settle (promise t) o (cancel i (exec ops (new_queue c))))
            = outcomes (cancel i (exec ops (new_queue c)))
              ++ [(promise t, RejectedCanceled)])
  /\ (forall t more,
       get i (queued (exec ops (new_queue c))) = Some t ->
       outcome_of (promise t) (exec more (cancel i (exec ops (new_queue c))))
       = None
       /\ ~ In (promise t)
               (calls (exec more (cancel i (exec ops (new_queue c))))))
  /\ (forall cb prio p more,
       fst (push i cb prio (exec ops (new_queue c))) = Some p ->
       (forall t,
          get i (pending (exec ops (new_queue c))) = Some t ->
          find_flight (promise t)
            (flights (snd (push i cb prio (exec ops (new_queue c)))))
          = Some (t, true))
       /\ (forall t,
            get i (queued (exec ops (new_queue c))) = Some t ->
            outcome_of (promise t)
              (exec more (snd (push i cb prio (exec ops (new_queue c)))))
            = None
            /\ ~ In (promise t)
                    (calls (exec more
                              (snd (push i cb prio (exec ops (new_queue c)))))))
       /\ (count_occ Nat.eq_dec
             (calls (exec more (snd (push i cb prio (exec ops (new_queue c))))))
             p <= 1)%nat).
Proof.
  set (q := exec ops (new_queue c)).
  assert (W : wf q) by (apply wf_exec, wf_new).
  split; [apply has_cancel|]. split; [|split].
  - intros t G. pose proof (cancel_triggers i t q W G) as F. split; auto.
    intros o. now apply settle_triggered with (t := t).
  - intros t more G.
    pose proof (abandoned_exec _ more _ (cancel_abandons i t q W G)) as A.
    assert (W' : wf (exec more (cancel i q))) by (apply wf_exec, wf_cancel, W).
    destruct (abandoned_never_settles _ _ W' A) as (E & N & _). auto.
  - intros cb prio p more P.
    assert (Wp : wf (exec more (snd (push i cb prio q)))).
    { apply wf_exec, wf_push, W. }
    destruct (push_accepted _ _ _ _ _ P) as [-> E]. split; [|split].
    + intros t G. rewrite E. apply find_flight_dequeue. cbn [add_task flights].
      exact (cancel_triggers i t q W G).
    + intros t G.
      assert (A : abandoned (promise t) (exec more (snd (push i cb prio q)))).
      { rewrite E. apply abandoned_exec, abandoned_dequeue, abandoned_add.
        exact (cancel_abandons i t q W G). }
      destruct (abandoned_never_settles _ _ Wp A) as (E' & N & _). auto.
    + apply NoDup_count_occ. exact (wf_nodup_calls _ Wp).
Qed.

End QueueFacts.

(* ===================================================================== *)
(** ** Properties of the logger *)
(* ===================================================================== *)

Module LoggerFacts.
Import Logger LoggerSpec.

Section WithRuntime.
Context {rt : Runtime}.

Lemma existsb_some_match res dbg :
  existsb (fun ns => regexp_test ns dbg) res = true <-> some_match res dbg.
Proof. unfold some_match. apply existsb_exists. Qed.

(** [shouldLog] is false as soon as the filter rejects the namespace or
    the level is below the current one. *)
Lemma shouldLog_false dbg l lg :
  filter_rejects lg dbg \/ below_level lg l -> shouldLog dbg l lg = false.
Proof.
  unfold shouldLog, filter_rejects, below_level.
  intros [[H|H]|H].
  - apply andb_false_iff. right.
    destruct (existsb _ (include (namespaces lg))) eqn:E; auto.
    apply existsb_some_match in E. tauto.
  - apply existsb_some_match in H. rewrite H.
    now rewrite andb_false_r.
  - apply Z.leb_gt in H. now rewrite H.
Qed.

(** C9. While the logger is not remote, a call of [log] whose namespace
    the filter rejects, or whose level is below the current level,
    writes nothing to stdout or stderr and still appends its entry, with
    the arguments and the time of the call, to the in-memory store. *)
Theorem log_filtered_is_kept_not_written dbg l message meta now lg :
  isRemote lg = false ->
  filter_rejects lg dbg \/ below_level lg l ->
  stdout (log dbg l message meta now lg) = stdout lg
  /\ stderr (log dbg l message meta now lg) = stderr lg
  /\ (exists text,
        messages (log dbg l message meta now lg)
        = messages lg ++ [mkEntry dbg l text meta now]
        /\ forall s, message = MsgString s -> text = s).
Proof.
  intros R H. unfold log. rewrite R.
  match goal with
  | |- context [shouldLog dbg l ?lg1] =>
      assert (S : shouldLog dbg l lg1 = false) by (apply shouldLog_false; exact H)
  end.
  rewrite S. cbn [stdout stderr messages]. repeat split.
  eexists. split; [reflexivity|].
  intros s ->. reflexivity.
Qed.

(** C10. When the stored [namespaces.string] is the very string passed,
    [debug] returns at once: the logger, with its level and its include
    and exclude lists, is left as it was, whatever the level was set to
    in the meantime. *)
Theorem debug_same_string_noop s lg :
  ns_string (namespaces lg) = NsStr s ->
  debug s lg = (false, lg)
  /\ forall l,
       debug s (snd (loglevel (Some l) lg))
       = (false, snd (loglevel (Some l) lg)).
Proof.
  intros H. split.
  - unfold debug. rewrite H. simpl. now rewrite String.eqb_refl.
  - intros l. unfold debug. simpl. rewrite H. simpl.
    now rewrite String.eqb_refl.
Qed.
End WithRuntime.

Lemma log_filtered_is_kept_not_written_witness :
  stdout (log (rt := example_runtime) "core" LDebug (MsgString "ready")
            [] 5 (initial false)) = [].
Proof.
  refine (proj1 (log_filtered_is_kept_not_written (rt := example_runtime)
                   "core" LDebug (MsgString "ready") [] 5 (initial false)
                   eq_refl _)).
  right. unfold below_level. simpl. lia.
Defined.

Lemma debug_same_string_noop_witness :
  debug (rt := example_runtime) ","
    (snd (loglevel (Some LWarn)
            (snd (debug (rt := example_runtime) "," (initial false)))))
  = (false,
     snd (loglevel (Some LWarn)
            (snd (debug (rt := example_runtime) "," (initial false))))).
Proof.
  refine (proj2 (debug_same_string_noop (rt := example_runtime) ","
                   (snd (debug (rt := example_runtime) "," (initial false)))
                   eq_refl) LWarn).
Defined.

(** After a call with at least one namespace, what [debug] stores as
    [namespaces.string] is the array of pieces, not the string: the same
    call made again is not short-cut and sets the level to [debug] again. *)
Lemma debug_stores_pieces :
  ns_string (namespaces (snd (debug (rt := example_runtime) "core" (initial false))))
  = NsArr ["core"]
  /\ level (snd (debug (rt := example_runtime) "core"
                  (snd (loglevel (Some LWarn)
                          (snd (debug (rt := example_runtime) "core"
                                  (initial false)))))))
     = LDebug.
Proof. split; reflexivity. Qed.

End LoggerFacts.

(* ===================================================================== *)
(** ** Properties of [Percy.snapshot] *)
(* ===================================================================== *)

Module PercyFacts.
Import Percy PercySpec.

Lemma not_running_iff p : not_running p = true <-> readyState p <> Some 1.
Proof.
  unfold not_running. destruct (readyState p) as [n|].
  - rewrite negb_true_iff, Z.eqb_neq. split; congruence.
  - split; [discriminate | reflexivity].
Qed.

(** C8. When [readyState] is not 1, or when [build.error] is set,
    [snapshot] fails with an error for every argument, and the Percy
    instance, its snapshots queue included, is left as it was: no task is
    enqueued. *)
Theorem snapshot_refused take all options p :
  readyState p <> Some 1 \/ error_set p = true ->
  (exists message, fst (snapshot take all options p) = Throws message)
  /\ snd (snapshot take all options p) = p
  /\ Queue.queued (snapshots (snd (snapshot take all options p)))
     = Queue.queued (snapshots p).
Proof.
  intros H.
  assert (E : exists message, snapshot take all options p = (Throws message, p)).
  { destruct (not_running p) eqn:N.
    - exists "Not running". destruct options; simpl; now rewrite N.
    - destruct H as [H|H]; [apply not_running_iff in H; congruence|].
      eexists. destruct options; simpl; rewrite N, H; reflexivity. }
  destruct E as [m E]. rewrite E. simpl. eauto.
Qed.

Lemma snapshot_refused_witness :
  snd (snapshot (fun _ p => (Returns 0, p)) (fun _ => 0%nat)
         (OptArray [OptString "http://localhost:8000"; OptObject 0])
         build_failed_run)
  = build_failed_run.
Proof.
  refine (proj1 (proj2 (snapshot_refused _ _ _ build_failed_run _))).
  right. reflexivity.
Defined.

End PercyFacts.

(* ===================================================================== *)
(** ** Further properties of the queue *)
(* ===================================================================== *)

Module QueueMoreFacts.
Import JsMap JsMapFacts Queue QueueSpec QueueMore QueueFacts.

(** *** Selection *)

Lemma scan_in_barrier t : forall m c,
  scan c m = Some t -> c = Some t \/ exists k, In (k, t) (before_barrier m).
Proof.
  induction m as [|[k h] m IH]; intros c H; cbn [scan before_barrier] in *; auto.
  destruct (String.eqb k flush_id).
  - destruct (replaces c h).
    + injection H as <-. right. exists k. now left.
    + auto.
  - destruct (IH _ H) as [E|[k' Hin]].
    + destruct (replaces c h).
      * injection E as <-. right. exists k. now left.
      * auto.
    + right. exists k'. now right.
Qed.

(** X1. [next()] returns nothing exactly when nothing is queued, and what
    it returns is queued no later than the first [@@/flush]: a task queued
    behind the barrier is never selected. *)
Theorem next_stops_at_barrier q :
  (next q = None <-> queued q = [])
  /\ (forall t, next q = Some t ->
                exists k, In (k, t) (before_barrier (queued q))).
Proof.
  split.
  - unfold next. destruct (queued q) as [|[k h] m]; [tauto|].
    split; [|discriminate]. cbn [scan replaces].
    destruct (String.eqb k flush_id); [discriminate|].
    destruct (scan_some m h) as [t E]. rewrite E. discriminate.
  - intros t H. destruct (scan_in_barrier _ _ _ H) as [E|E];
      [discriminate | exact E].
Qed.

Lemma next_first_best_example :
  exists pre k post,
    before_barrier (queued mixed_priorities)
    = pre ++ (k, mkTask "b" (CbClient 1) (PNum 2) 1) :: post
    /\ (forall e, In e pre ->
                  outranks (PNum 2) (priority (snd e)) = true)
    /\ (forall e, In e post ->
                  outranks (priority (snd e)) (PNum 2) = false).
Proof.
  assert (NN : no_null (queued mixed_priorities)).
  { vm_compute. repeat (apply Forall_cons; [discriminate|]). apply Forall_nil. }
  assert (E : next mixed_priorities = Some (mkTask "b" (CbClient 1) (PNum 2) 1)).
  { vm_compute. reflexivity. }
  exact (next_first_best mixed_priorities _ NN E).
Defined.

(** *** More about maps *)

Lemma delete_delete {V} k (m : JsMap.t V) : delete k (delete k m) = delete k m.
Proof.
  unfold delete. induction m as [|[k' v] m IH]; simpl; auto.
  destruct (String.eqb k' k) eqn:E; simpl; auto.
  rewrite E. simpl. now rewrite IH.
Qed.

Lemma delete_absent {V} k (m : JsMap.t V) : ~ In k (keys m) -> delete k m = m.
Proof.
  unfold delete. induction m as [|[k' v] m IH]; simpl; auto.
  intros N. destruct (String.eqb k' k) eqn:E.
  - apply String.eqb_eq in E. tauto.
  - simpl. f_equal. apply IH. tauto.
Qed.

Lemma get_delete_other {V} k k' (m : JsMap.t V) :
  k' <> k -> get k' (delete k m) = get k' m.
Proof.
  intros N. unfold delete. induction m as [|[k0 v] m IH]; simpl; auto.
  destruct (String.eqb k0 k) eqn:E; simpl.
  - apply String.eqb_eq in E. subst.
    destruct (String.eqb k k') eqn:E'; auto.
    apply String.eqb_eq in E'. congruence.
  - destruct (String.eqb k0 k'); auto.
Qed.

Lemma get_set_same {V} k (v : V) m : get k (set k v m) = Some v.
Proof.
  induction m as [|[k0 v0] m IH]; simpl.
  - now rewrite String.eqb_refl.
  - destruct (String.eqb k0 k) eqn:E; simpl.
    + now rewrite String.eqb_refl.
    + now rewrite E.
Qed.

Lemma length_delete_present {V} k (m : JsMap.t V) :
  NoDup (keys m) -> In k (keys m) ->
  S (List.length (delete k m)) = List.length m.
Proof.
  induction m as [|[k' v] m IH]; cbn [keys map fst]; [intros _ []|].
  intros ND H. inversion ND as [|? ? Hn ND']; subst.
  unfold delete. cbn [filter fst]. fold (delete k m).
  destruct (String.eqb k' k) eqn:E; cbn [negb List.length].
  - apply String.eqb_eq in E. subst.
    now rewrite (delete_absent k m Hn).
  - apply String.eqb_neq in E. destruct H as [H|H]; [congruence|].
    f_equal. now apply IH.
Qed.

Lemma size_delete_present {V} k (m : JsMap.t V) :
  NoDup (keys m) -> In k (keys m) -> JsMap.size (delete k m) = JsMap.size m - 1.
Proof.
  intros ND H. pose proof (length_delete_present k m ND H).
  unfold JsMap.size. lia.
Qed.

Lemma size_set_absent {V} k (v : V) m :
  ~ In k (keys m) -> JsMap.size (set k v m) = JsMap.size m + 1.
Proof.
  intros N. rewrite set_absent by assumption.
  unfold JsMap.size. rewrite length_app. simpl. lia.
Qed.

(** *** [run] *)

(** X3. When [run()] returns on a queue reached from a new one, its loop
    has really ended: the queue was stopped again by the callback of a
    flush sentinel, or nothing is queued any more, or [pending] is at
    capacity. *)
Theorem run_saturates c ops :
  running (run (exec ops (new_queue c))) = false
  \/ queued (run (exec ops (new_queue c))) = []
  \/ concurrency (run (exec ops (new_queue c)))
     <= JsMap.size (pending (run (exec ops (new_queue c)))).
Proof.
  pose proof (run_terminates (exec ops (new_queue c))
                (wf_keyed_q _ (wf_exec ops _ (wf_new c)))) as H.
  unfold run_cond in H.
  destruct (running (run (exec ops (new_queue c)))); auto.
  destruct (queued (run (exec ops (new_queue c)))) as [|e m] eqn:Q; auto.
  right. right. simpl in H.
  replace (0 <? JsMap.size (e :: m)) with true in H.
  - simpl in H. apply Z.ltb_ge in H. exact H.
  - symmetry. apply Z.ltb_lt. unfold JsMap.size. simpl List.length. lia.
Qed.

(** *** [cancel] *)

(** X4. [cancel(id)] is idempotent and touches no other id: a second call
    changes nothing, and the tasks queued or pending under other ids stay
    where they are. *)
Theorem cancel_idempotent_local i q :
  cancel i (cancel i q) = cancel i q
  /\ (forall j, j <> i ->
        get j (queued (cancel i q)) = get j (queued q)
        /\ get j (pending (cancel i q)) = get j (pending q)
        /\ has j (cancel i q) = has j q).
Proof.
  split.
  - unfold cancel at 1. cbn [set_flights set_pending set_queued queued pending
                              flights running closed concurrency outcomes calls
                              fresh promotions].
    assert (G : get i (pending (cancel i q)) = None).
    { apply get_none_keys. simpl. intros H. apply in_keys_delete in H. tauto. }
    rewrite G. simpl. rewrite !delete_delete. reflexivity.
  - intros j N. simpl. rewrite !get_delete_other by assumption.
    repeat split. unfold has. simpl.
    now rewrite !has_delete_other by assumption.
Qed.

(** *** A stopped queue *)

Lemma dequeue_stopped q : running q = false -> _dequeue q = q.
Proof. intros R. unfold _dequeue, promoted. now rewrite R. Qed.

Lemma stopped_step o q :
  not_resuming o -> running q = false ->
  running (step o q) = false /\ calls (step o q) = calls q.
Proof.
  intros N R. destruct o; simpl in N; try contradiction; cbn [step];
    try solve [simpl; now split].
  - unfold push.
    destruct (closed q && negb (String.prefix "@@/" i)); [now split|].
    unfold enqueue. cbn [snd].
    rewrite dequeue_stopped by (simpl; exact R). simpl. now split.
  - unfold close. destruct abort; simpl; now split.
  - unfold flush_canceled. destruct stopped; simpl; now split.
  - unfold settle.
    destruct (find_flight p (flights q)) as [[t trig]|]; [|now split].
    rewrite dequeue_stopped by (destruct trig; simpl; exact R).
    destruct trig; simpl; now split.
Qed.

(** X5. After [stop()], no callback is started until [run()] or [flush()]
    is called: whatever is pushed, cancelled, cleared, opened, closed or
    settled in between, the queue stays stopped and the list of started
    callbacks stays as it was. *)
Theorem stopped_starts_nothing ops q :
  Forall not_resuming ops ->
  running (exec ops (stop q)) = false
  /\ calls (exec ops (stop q)) = calls q.
Proof.
  intros N.
  apply (exec_invariant
           (fun q' => running q' = false /\ calls q' = calls q) not_resuming);
    auto.
  intros o q' No [R C]. destruct (stopped_step o q' No R) as [R' C'].
  split; congruence.
Qed.

Lemma stopped_starts_nothing_witness :
  Forall not_resuming [OpPush "a" 0 (PNum 1); OpSettle 0 Resolved;
                       OpClose false; OpPush "@@/x" 1 PUndefined]
  /\ calls (exec [OpPush "a" 0 (PNum 1); OpSettle 0 Resolved; OpClose false;
                  OpPush "@@/x" 1 PUndefined] (stop (new_queue 3))) = [].
Proof.
  assert (N : Forall not_resuming
                [OpPush "a" 0 (PNum 1); OpSettle 0 Resolved; OpClose false;
                 OpPush "@@/x" 1 PUndefined]).
  { repeat (apply Forall_cons; [exact I|]). apply Forall_nil. }
  split; [exact N|].
  exact (proj2 (stopped_starts_nothing _ (new_queue 3) N)).
Defined.

(** *** Sizes *)

Lemma size_invoke t q : size (invoke t q) = size q.
Proof. unfold invoke. destruct (callback t) as [|[|]]; reflexivity. Qed.

Lemma size_dequeue q : wf q -> size (_dequeue q) = size q.
Proof.
  intros W. unfold _dequeue. destruct (promoted q) as [t|] eqn:P; auto.
  destruct (next_in _ _ (promoted_next _ _ P)) as [k Hin].
  pose proof (wf_keyed_q _ W) as K. unfold keyed in K.
  rewrite Forall_forall in K. pose proof (K _ Hin) as Kt. simpl in Kt. subst k.
  assert (Hk : In (id t) (keys (queued q))).
  { unfold keys. apply in_map_iff. exists (id t, t). auto. }
  unfold promote. rewrite size_invoke. unfold size. simpl.
  rewrite (size_delete_present _ _ (wf_nodup_q _ W) Hk).
  rewrite (size_set_absent _ _ _ (wf_disjoint _ W _ Hk)). lia.
Qed.

Lemma size_cancel i q :
  wf q -> size (cancel i q) = size q - (if has i q then 1 else 0).
Proof.
  intros W. unfold size, has. simpl.
  destruct (JsMap.has i (queued q)) eqn:Hq; simpl.
  - apply has_keys in Hq.
    rewrite (size_delete_present _ _ (wf_nodup_q _ W) Hq).
    rewrite (delete_absent i (pending q) (wf_disjoint _ W _ Hq)). lia.
  - apply has_false_keys in Hq. rewrite (delete_absent i (queued q) Hq).
    destruct (JsMap.has i (pending q)) eqn:Hp.
    + apply has_keys in Hp.
      rewrite (size_delete_present _ _ (wf_nodup_p _ W) Hp). lia.
    + apply has_false_keys in Hp. rewrite (delete_absent i (pending q) Hp). lia.
Qed.

(** X6. In any state reached from a new queue, an accepted [push] makes
    the queue one task larger when the id is new and leaves its size
    unchanged when the id is already queued or pending: the older task
    under that id is replaced, never kept beside the new one. *)
Theorem push_size c ops i cb prio p :
  fst (push i cb prio (exec ops (new_queue c))) = Some p ->
  size (snd (push i cb prio (exec ops (new_queue c))))
  = size (exec ops (new_queue c))
    + (if has i (exec ops (new_queue c)) then 0 else 1).
Proof.
  set (q := exec ops (new_queue c)).
  assert (W : wf q) by (apply wf_exec, wf_new).
  intros P. destruct (push_accepted _ _ _ _ _ P) as [_ E]. rewrite E.
  assert (Wc : wf (cancel i q)) by now apply wf_cancel.
  assert (Nq : ~ In i (keys (queued (cancel i q)))).
  { simpl. intros H. apply in_keys_delete in H. tauto. }
  assert (Np : ~ In i (keys (pending (cancel i q)))).
  { simpl. intros H. apply in_keys_delete in H. tauto. }
  rewrite size_dequeue by (apply (wf_add i cb prio (cancel i q)); auto).
  unfold size at 1. cbn [add_task queued pending].
  rewrite size_set_absent by assumption.
  pose proof (size_cancel i q W) as S. unfold size at 1 in S.
  destruct (has i q); lia.
Qed.

Lemma push_size_witness :
  size (snd (push "b" (CbClient 7) PUndefined
               (exec [OpPush "a" 0 PUndefined; OpPush "b" 1 PUndefined]
                     (new_queue 1))))
  = size (exec [OpPush "a" 0 PUndefined; OpPush "b" 1 PUndefined]
               (new_queue 1))
    + (if has "b" (exec [OpPush "a" 0 PUndefined; OpPush "b" 1 PUndefined]
                        (new_queue 1)) then 0 else 1).
Proof.
  exact (push_size 1 [OpPush "a" 0 PUndefined; OpPush "b" 1 PUndefined]
           "b" (CbClient 7) PUndefined 2%nat eq_refl).
Defined.

(** *** [close] *)

Lemma plain_push_dropped o q :
  plain_push o -> closed q = true -> step o q = q.
Proof.
  destruct o; simpl; try contradiction.
  intros P C. unfold push. now rewrite C, P.
Qed.

(** X7. [close(true)] stops the queue, empties [queued], keeps [pending]
    and marks the queue closed; from then on every push under an id that
    does not begin with [@@/] leaves the queue exactly as it is. *)
Theorem close_abort_drops q ops :
  Forall plain_push ops ->
  queued (close true q) = []
  /\ pending (close true q) = pending q
  /\ running (close true q) = false
  /\ closed (close true q) = true
  /\ exec ops (close true q) = close true q.
Proof.
  intros P. repeat split.
  apply (exec_invariant (fun q' => q' = close true q) plain_push); auto.
  intros o q' Po ->. now apply plain_push_dropped.
Qed.

Lemma close_abort_drops_witness :
  Forall plain_push [OpPush "snapshot/home" 0 PUndefined;
                     OpPush "upload/home" 1 PUndefined]
  /\ exec [OpPush "snapshot/home" 0 PUndefined;
           OpPush "upload/home" 1 PUndefined]
          (close true one_running_one_waiting)
     = close true one_running_one_waiting.
Proof.
  assert (P : Forall plain_push [OpPush "snapshot/home" 0 PUndefined;
                                 OpPush "upload/home" 1 PUndefined]).
  { repeat (apply Forall_cons; [reflexivity|]). apply Forall_nil. }
  split; [exact P|].
  exact (proj2 (proj2 (proj2 (proj2
           (close_abort_drops one_running_one_waiting _ P))))).
Defined.

(** *** [push] on an idle queue *)

(** X8. On a running queue with nothing queued and a free slot, an
    accepted [push] starts the task at once: after the call the task is
    pending under its id, nothing is queued, and its callback is the one
    started last. *)
Theorem push_starts_at_once i cb prio p q :
  running q = true ->
  queued q = [] ->
  JsMap.size (pending q) < concurrency q ->
  fst (push i cb prio q) = Some p ->
  get i (pending (snd (push i cb prio q))) = Some (mkTask i cb prio p)
  /\ queued (snd (push i cb prio q)) = []
  /\ calls (snd (push i cb prio q)) = calls q ++ [p].
Proof.
  intros R Q S P. destruct (push_accepted _ _ _ _ _ P) as [-> E]. rewrite E.
  assert (Pr : promoted (add_task i cb prio (cancel i q))
               = Some (mkTask i cb prio (fresh q))).
  { unfold promoted. cbn [add_task cancel set_queued set_pending set_flights
                          running concurrency pending queued fresh].
    rewrite R. cbn [negb].
    pose proof (size_delete_le i (pending q)).
    replace (concurrency q <=? JsMap.size (delete i (pending q))) with false
      by (symmetry; apply Z.leb_gt; lia).
    unfold next. cbn [add_task cancel set_queued set_pending set_flights
                      queued fresh].
    rewrite Q. cbn [delete filter set scan replaces].
    destruct (String.eqb i flush_id); reflexivity. }
  unfold _dequeue. rewrite Pr. unfold promote.
  rewrite pending_invoke, queued_invoke, calls_invoke.
  cbn [add_task cancel set_queued set_pending set_flights running concurrency
       pending queued fresh calls id promise].
  rewrite Q. repeat split.
  - apply get_set_same.
  - cbn [delete filter set fst]. rewrite String.eqb_refl. reflexivity.
Qed.

Lemma push_starts_at_once_witness :
  calls (snd (push "a" (CbClient 0) (PNum 4) (new_queue 2))) = [] ++ [0%nat].
Proof.
  refine (proj2 (proj2 (push_starts_at_once "a" (CbClient 0) (PNum 4) 0%nat
                          (new_queue 2) eq_refl eq_refl _ eq_refl))).
  vm_compute. reflexivity.
Defined.

(** *** [flush] *)

(** X10. [flush] is never refused: even on a closed queue the sentinel is
    enqueued, because its id begins with [@@/], and a promise for it is
    returned. *)
Theorem flush_sentinel_enqueued q :
  (exists p, fst (flush q) = Some p)
  /\ has flush_id (snd (flush q)) = true.
Proof.
  unfold flush, push.
  replace (String.prefix "@@/" flush_id) with true by reflexivity.
  rewrite andb_false_r.
  destruct (enqueue_has flush_id (CbFlush (negb (running q))) PUndefined (run q))
    as (H1 & H2 & H3).
  destruct (enqueue flush_id (CbFlush (negb (running q))) PUndefined (run q))
    as [p q']. cbn [fst snd] in *. eauto.
Qed.

(** *** Completion *)

(** The state [done] hands to [_dequeue]. *)
Lemma wf_settled t trig p o q :
  wf q -> In (t, trig) (flights q) -> promise t = p ->
  wf (mkQueue (running q) (closed q) (concurrency q) (queued q)
        (if negb trig then delete (id t) (pending q) else pending q)
        (remove_flight p (flights q))
        (outcomes q ++ [(p, adapter_outcome trig o)])
        (calls q) (fresh q) (promotions q)).
Proof.
  intros W Fin Fp. pose proof W as [].
  assert (Kp : forall e, In e (pending q) -> fst e = id (snd e)).
  { now apply Forall_forall. }
  assert (Called : In p (calls q)).
  { apply wf_flights_called0. unfold flight_promises. apply in_map_iff.
    exists (t, trig). auto. }
  constructor; cbn [queued pending flights outcomes calls fresh]; auto.
  - destruct trig; cbn [negb]; auto. now apply keyed_delete.
  - destruct trig; cbn [negb]; auto. now apply nodup_keys_delete.
  - intros k Hq Hk. destruct trig; cbn [negb] in Hk.
    + exact (wf_disjoint0 k Hq Hk).
    + apply in_keys_delete in Hk. destruct Hk. exact (wf_disjoint0 k Hq H).
  - intros x Hx. apply wf_flights_called0. exact (in_map_filter _ _ _ _ Hx).
  - now apply nodup_map_filter.
  - intros e He. apply in_app_or in He. destruct He as [He|[<-|[]]]; auto.
  - intros e He. apply in_remove_flight.
    assert (Hin : In e (pending q)).
    { destruct trig; cbn [negb] in He; auto. apply in_delete in He. tauto. }
    split; auto. simpl. intros E.
    assert (X : (snd e, false) = (t, trig)).
    { apply (nodup_map_inj (fun f => promise (fst f)) (flights q)); auto.
      simpl. congruence. }
    injection X as X1 X2. subst trig. cbn [negb] in He.
    apply in_delete in He. destruct He as [_ Ne]. apply Ne.
    rewrite (Kp e Hin). now rewrite X1.
Qed.

Lemma flights_pending_new c : flights_pending (new_queue c).
Proof. intros t []. Qed.

Lemma flights_pending_cancel i q :
  wf q -> flights_pending q -> flights_pending (cancel i q).
Proof.
  intros W F t Hin. simpl in *.
  destruct (get i (pending q)) as [t0|] eqn:G.
  - unfold trigger in Hin. apply in_map_iff in Hin.
    destruct Hin as ([t1 b] & E & Hin). simpl in E.
    destruct (Nat.eqb (promise t1) (promise t0)) eqn:Ep; [discriminate|].
    injection E as -> ->. apply Nat.eqb_neq in Ep.
    apply in_delete. split; auto. simpl. intros Ei.
    apply get_in in G. pose proof (F _ Hin) as Hp. rewrite Ei in Hp.
    pose proof (in_get _ _ _ (wf_nodup_p _ W) G) as X0.
    pose proof (in_get _ _ _ (wf_nodup_p _ W) Hp) as X1.
    congruence.
  - apply in_delete. split; auto. simpl. intros Ei.
    apply get_none_keys in G. apply G. rewrite <- Ei.
    unfold keys. apply in_map_iff. exists (id t, t). auto.
Qed.

Lemma flights_pending_dequeue q :
  wf q -> flights_pending q -> flights_pending (_dequeue q).
Proof.
  intros W F. unfold _dequeue. destruct (promoted q) as [t0|] eqn:P; auto.
  destruct (next_in _ _ (promoted_next _ _ P)) as [k Hin].
  pose proof (wf_keyed_q _ W) as K. unfold keyed in K.
  rewrite Forall_forall in K. pose proof (K _ Hin) as Kt. simpl in Kt. subst k.
  assert (Hk : In (id t0) (keys (queued q))).
  { unfold keys. apply in_map_iff. exists (id t0, t0). auto. }
  unfold flights_pending, promote.
  rewrite flights_invoke, pending_invoke. simpl.
  rewrite (set_absent _ _ _ (wf_disjoint _ W _ Hk)).
  intros t Ht. apply in_or_app. apply in_app_or in Ht.
  destruct Ht as [Ht|[[= <-]|[]]]; [left; auto | right; now left].
Qed.

Lemma flights_pending_run_loop fuel : forall q,
  wf q -> flights_pending q -> flights_pending (run_loop fuel q).
Proof.
  induction fuel as [|fuel IH]; intros q W F; simpl; auto.
  destruct (run_cond q); auto using wf_dequeue, flights_pending_dequeue.
Qed.

Lemma flights_pending_push i cb prio q :
  wf q -> flights_pending q -> flights_pending (snd (push i cb prio q)).
Proof.
  intros W F. unfold push.
  destruct (closed q && negb (String.prefix "@@/" i)); auto.
  unfold enqueue. cbn [snd]. apply flights_pending_dequeue.
  - apply (wf_add i cb prio (cancel i q)).
    + now apply wf_cancel.
    + simpl. intros H. apply in_keys_delete in H. tauto.
    + simpl. intros H. apply in_keys_delete in H. tauto.
  - exact (flights_pending_cancel i q W F).
Qed.

Lemma flights_pending_settle p o q :
  wf q -> flights_pending q -> flights_pending (settle p o q).
Proof.
  intros W F. unfold settle.
  destruct (find_flight p (flights q)) as [[t0 trig]|] eqn:Ff; auto.
  destruct (find_flight_in _ _ _ Ff) as [Fin Fp]. simpl in Fp.
  pose proof (wf_settled t0 trig p o q W Fin Fp) as W2.
  apply flights_pending_dequeue.
  - destruct trig; exact W2.
  - intros t Ht. destruct trig; cbn [negb set_pending flights pending] in *.
    + apply in_remove_flight in Ht. destruct Ht as [Ht _]. exact (F _ Ht).
    + apply in_remove_flight in Ht. destruct Ht as [Ht Np]. simpl in Np.
      apply in_delete. split; [exact (F _ Ht)|]. simpl. intros Ei.
      pose proof (in_get _ _ _ (wf_nodup_p _ W) (F _ Ht)) as X1.
      pose proof (in_get _ _ _ (wf_nodup_p _ W) (F _ Fin)) as X0.
      rewrite Ei in X1. congruence.
Qed.

Lemma flights_pending_step o q :
  wf q -> flights_pending q -> flights_pending (step o q).
Proof.
  intros W F. destruct o; cbn [step].
  - now apply flights_pending_push.
  - now apply flights_pending_cancel.
  - exact F.
  - unfold run. apply flights_pending_run_loop; auto using wf_set_running.
  - exact F.
  - exact F.
  - unfold close. destruct abort; exact F.
  - unfold flush. apply flights_pending_push; auto using wf_run.
    unfold run. apply flights_pending_run_loop; auto using wf_set_running.
  - unfold flush_canceled. destruct stopped.
    + apply flights_pending_cancel; auto. now apply wf_set_running.
    + now apply flights_pending_cancel.
  - now apply flights_pending_settle.
Qed.

Lemma reached_invariants c ops :
  0 <= c ->
  wf (exec ops (new_queue c))
  /\ flights_pending (exec ops (new_queue c))
  /\ bounded c (exec ops (new_queue c)).
Proof.
  intros Hc.
  apply (exec_invariant
           (fun q => wf q /\ flights_pending q /\ bounded c q)
           (fun _ => True)).
  - intros o q _ (W & F & B).
    auto using wf_step, flights_pending_step, bounded_step.
  - apply Forall_forall. auto.
  - split; [apply wf_new|]. split; [apply flights_pending_new|].
    split; [reflexivity | exact Hc].
Qed.

Lemma next_some q : queued q <> [] -> exists t, next q = Some t.
Proof.
  unfold next. destruct (queued q) as [|[k h] m]; [congruence|].
  intros _. cbn [scan replaces].
  destruct (String.eqb k flush_id); eauto using scan_some.
Qed.

(** X9. In any state reached from a new queue, when a started task whose
    [cancel()] was not called settles, its id leaves the queue and its
    promise is settled the way the task ended; and if the queue is running
    with tasks waiting, one of them is promoted and started in the same
    step, so the freed slot is not left idle. *)
Theorem settle_frees_slot c ops p o t :
  0 <= c ->
  find_flight p (flights (exec ops (new_queue c))) = Some (t, false) ->
  has (id t) (settle p o (exec ops (new_queue c))) = false
  /\ outcomes (settle p o (exec ops (new_queue c)))
     = outcomes (exec ops (new_queue c)) ++ [(p, o)]
  /\ (running (exec ops (new_queue c)) = true ->
      queued (exec ops (new_queue c)) <> [] ->
      exists t',
        In (id t', t') (queued (exec ops (new_queue c)))
        /\ get (id t') (pending (settle p o (exec ops (new_queue c))))
           = Some t'
        /\ calls (settle p o (exec ops (new_queue c)))
           = calls (exec ops (new_queue c)) ++ [promise t']).
Proof.
  intros Hc Ff. destruct (reached_invariants c ops Hc) as (W & F & [Bc B]).
  set (q := exec ops (new_queue c)) in *.
  destruct (find_flight_in _ _ _ Ff) as [Fin Fp]. simpl in Fp.
  pose proof (F _ Fin) as Hp.
  assert (Hk : In (id t) (keys (pending q))).
  { unfold keys. apply in_map_iff. exists (id t, t). auto. }
  assert (Nq : ~ In (id t) (keys (queued q))).
  { intros H. exact (wf_disjoint _ W _ H Hk). }
  assert (K : forall k t', In (k, t') (queued q) -> k = id t').
  { pose proof (wf_keyed_q _ W) as K. unfold keyed in K.
    rewrite Forall_forall in K. intros k t' H. exact (K _ H). }
  unfold settle. rewrite Ff. cbn [negb set_pending running closed concurrency
                                  queued pending flights outcomes calls fresh
                                  promotions adapter_outcome].
  set (q2 := mkQueue (running q) (closed q) (concurrency q) (queued q)
               (delete (id t) (pending q)) (remove_flight p (flights q))
               (outcomes q ++ [(p, o)]) (calls q) (fresh q) (promotions q)).
  split; [|split].
  - unfold _dequeue. destruct (promoted q2) as [t'|] eqn:P.
    + destruct (next_in _ _ (promoted_next _ _ P)) as [k Hin].
      cbn [q2 queued] in Hin. pose proof (K _ _ Hin) as ->.
      assert (Hk' : In (id t') (keys (queued q))).
      { unfold keys. apply in_map_iff. exists (id t', t'). auto. }
      unfold promote. rewrite has_invoke. unfold has. simpl.
      apply orb_false_iff. split.
      * apply has_false_keys. intros H. apply in_keys_delete in H. tauto.
      * apply has_false_keys. intros H. apply keys_set in H.
        destruct H as [H|H].
        -- rewrite H in Nq. tauto.
        -- apply in_keys_delete in H. tauto.
    + unfold has. simpl. apply orb_false_iff. split.
      * now apply has_false_keys.
      * apply has_delete_same.
  - now rewrite outcomes_dequeue.
  - intros R Q. destruct (next_some q Q) as [t' N].
    assert (P : promoted q2 = Some t').
    { unfold promoted. cbn [q2 running concurrency pending]. rewrite R.
      cbn [negb]. rewrite (size_delete_present _ _ (wf_nodup_p _ W) Hk).
      replace (concurrency q <=? JsMap.size (pending q) - 1) with false
        by (symmetry; apply Z.leb_gt; lia).
      exact N. }
    destruct (next_in _ _ N) as [k Hin]. pose proof (K _ _ Hin) as ->.
    exists t'. split; auto.
    unfold _dequeue. rewrite P. unfold promote.
    rewrite pending_invoke, calls_invoke. simpl. split; auto.
    apply get_set_same.
Qed.

Lemma settle_frees_slot_witness :
  has "a" (settle 0 Resolved
             (exec [OpPush "a" 0 PUndefined; OpPush "b" 1 PUndefined]
                   (new_queue 1))) = false.
Proof.
  refine (proj1 (settle_frees_slot 1
                   [OpPush "a" 0 PUndefined; OpPush "b" 1 PUndefined]
                   0%nat Resolved (mkTask "a" (CbClient 0) PUndefined 0)
                   _ eq_refl)).
  lia.
Defined.

End QueueMoreFacts.

(* ===================================================================== *)
(** ** Further properties of the logger *)
(* ===================================================================== *)

Module LoggerMoreFacts.
Import Logger LoggerSpec LoggerMore.

Section WithRuntime.
Context {rt : Runtime}.

Lemma write_keeps l text lg :
  messages (write l text lg) = messages lg
  /\ deprecations (write l text lg) = deprecations lg
  /\ socket (write l text lg) = socket lg
  /\ level (write l text lg) = level lg
  /\ namespaces (write l text lg) = namespaces lg.
Proof. repeat split. Qed.

(** X11. While the logger is remote, [log] sends exactly one packet,
    carrying the debug label, the level and the meta with [remote: true] in
    front, and does nothing else: nothing is stored, nothing is written to
    stdout or stderr. *)
Theorem log_remote_sends_one_packet dbg l message meta now lg :
  isRemote lg = true ->
  messages (log dbg l message meta now lg) = messages lg
  /\ stdout (log dbg l message meta now lg) = stdout lg
  /\ stderr (log dbg l message meta now lg) = stderr lg
  /\ exists sk w,
       socket lg = Some sk
       /\ socket (log dbg l message meta now lg)
          = Some (mkSocket (readyState sk)
                    (sent sk ++ [mkPacket dbg l w (remote_meta meta)]))
       /\ (forall s, message = MsgString s -> w = WireString s).
Proof.
  intros R. unfold log. rewrite R. unfold isRemote in R.
  destruct (socket lg) as [sk|] eqn:S; [|discriminate].
  cbn [messages stdout stderr socket]. repeat split.
  eexists sk, _. repeat split. intros s ->. reflexivity.
Qed.

Lemma log_local_messages dbg l message meta now lg :
  isRemote lg = false ->
  messages (log dbg l message meta now lg)
  = messages lg ++ [mkEntry dbg l (stored_text l message) meta now].
Proof.
  intros R. unfold log. rewrite R.
  match goal with
  | |- context [shouldLog dbg l ?lg1] => destruct (shouldLog dbg l lg1)
  end; reflexivity.
Qed.

(** X12. While the logger is not remote, every [log] call, written out or
    not, appends exactly one entry to the store and keeps the earlier ones
    in order; so a [query] afterwards returns what it returned before,
    followed by the new entry when the filter accepts it. *)
Theorem log_local_appends dbg l message meta now lg f :
  isRemote lg = false ->
  messages (log dbg l message meta now lg)
  = messages lg ++ [mkEntry dbg l (stored_text l message) meta now]
  /\ query f (log dbg l message meta now lg)
     = query f lg
       ++ (if f (mkEntry dbg l (stored_text l message) meta now)
           then [mkEntry dbg l (stored_text l message) meta now] else [])
  /\ (forall s, message = MsgString s -> stored_text l message = s).
Proof.
  intros R. unfold query. rewrite (log_local_messages _ _ _ _ _ _ R).
  split; [reflexivity|]. split.
  - rewrite filter_app. reflexivity.
  - intros s ->. reflexivity.
Qed.

Lemma shouldLog_store dbg l lg ms :
  shouldLog dbg l
    (mkLogger (level lg) (namespaces lg) ms (deprecations lg) (socket lg)
              (lastlog lg) (_progress lg) (isTTY lg) (stdout lg) (stderr lg))
  = shouldLog dbg l lg.
Proof. reflexivity. Qed.

(** X13. A [log] call that is written out (the logger is not remote and
    [shouldLog] holds) goes to exactly one stream: a line at level [info]
    is written to stdout and leaves stderr alone, a line at any other level
    is written to stderr and leaves stdout alone (no progress line being on
    display). The line ends with a line feed, and the time of the call is
    remembered. *)
Theorem log_written_by_level dbg l message meta now lg :
  isRemote lg = false ->
  shouldLog dbg l lg = true ->
  isTTY lg = false \/ _progress lg = None ->
  lastlog (log dbg l message meta now lg) = Some now
  /\ exists line,
       (l = LInfo ->
        stdout (log dbg l message meta now lg)
        = stdout lg ++ [Write (String.append line (String "010" EmptyString))]
        /\ stderr (log dbg l message meta now lg) = stderr lg)
       /\ (l <> LInfo ->
           stderr (log dbg l message meta now lg)
           = stderr lg ++ [Write (String.append line (String "010" EmptyString))]
           /\ stdout (log dbg l message meta now lg) = stdout lg).
Proof.
  intros R S T. unfold log. rewrite R, shouldLog_store, S.
  cbn [lastlog]. split; [reflexivity|].
  unfold write.
  cbn [level namespaces messages deprecations socket lastlog _progress isTTY
       stdout stderr].
  assert (P : (if isTTY lg then _progress lg else None) = None).
  { destruct T as [T|T]; rewrite T; [reflexivity | now destruct (isTTY lg)]. }
  rewrite P.
  destruct l; eexists; (split; [intros E | intros N]);
    try discriminate; try congruence;
    cbn [level_eqb LOG_LEVELS Z.eqb Pos.eqb];
    destruct (_progress lg) as [[m []]|]; split; reflexivity.
Qed.

(** X14. [shouldLog] is monotone in the level: a namespace that is logged
    at some level is logged at every higher level. *)
Theorem shouldLog_monotone dbg l l' lg :
  LOG_LEVELS l <= LOG_LEVELS l' ->
  shouldLog dbg l lg = true -> shouldLog dbg l' lg = true.
Proof.
  unfold shouldLog. intros H S.
  apply andb_true_iff in S. destruct S as [S S3].
  apply andb_true_iff in S. destruct S as [S1 S2].
  rewrite S2, S3. apply Z.leb_le in S1.
  replace (LOG_LEVELS (level lg) <=? LOG_LEVELS l') with true; auto.
  symmetry. apply Z.leb_le. lia.
Qed.

Lemma log_deprecations dbg l message meta now lg :
  deprecations (log dbg l message meta now lg) = deprecations lg.
Proof.
  unfold log. destruct (isRemote lg).
  - destruct (socket lg); reflexivity.
  - match goal with
    | |- context [shouldLog dbg l ?lg1] => destruct (shouldLog dbg l lg1)
    end; reflexivity.
Qed.

Lemma deprecated_recorded dbg message meta now lg :
  existsb (String.eqb message) (deprecations (deprecated dbg message meta now lg))
  = true.
Proof.
  unfold deprecated.
  destruct (existsb (String.eqb message) (deprecations lg)) eqn:E; auto.
  rewrite log_deprecations. cbn [deprecations].
  rewrite existsb_app. simpl. rewrite String.eqb_refl.
  now rewrite orb_true_r.
Qed.

(** X15. [deprecated] warns once for each message: the first call with a
    message records it and logs ["Warning: "] followed by the message at
    level [warn]; any later call with the same message, under whatever
    label or meta, changes nothing. *)
Theorem deprecated_once dbg dbg' message meta meta' now now' lg :
  deprecated dbg' message meta' now'
    (deprecated dbg message meta now lg)
  = deprecated dbg message meta now lg
  /\ (existsb (String.eqb message) (deprecations lg) = false ->
      deprecated dbg message meta now lg
      = log dbg LWarn (MsgString (String.append "Warning: " message)) meta now
          (mkLogger (level lg) (namespaces lg) (messages lg)
                    (deprecations lg ++ [message]) (socket lg) (lastlog lg)
                    (_progress lg) (isTTY lg) (stdout lg) (stderr lg))
      /\ (isRemote lg = false ->
          messages (deprecated dbg message meta now lg)
          = messages lg
            ++ [mkEntry dbg LWarn (String.append "Warning: " message)
                        meta now])).
Proof.
  split.
  - unfold deprecated at 1. now rewrite deprecated_recorded.
  - intros E. unfold deprecated. rewrite E. split; [reflexivity|].
    intros R. rewrite log_local_messages by exact R. reflexivity.
Qed.

Lemma reduce_namespaces_counts : forall parts acc n,
  reduce_namespaces parts acc = Some n ->
  ns_string n = ns_string acc
  /\ (List.length (include n) + List.length (exclude n)
      = List.length (include acc) + List.length (exclude acc)
        + List.length parts)%nat.
Proof.
  induction parts as [|ns parts IH]; intros acc n H; cbn [reduce_namespaces] in H.
  - injection H as <-. split; [reflexivity | simpl; lia].
  - destruct (String.prefix "-" (replace_stars ns)).
    + destruct (regexp_valid _); [|discriminate].
      apply IH in H. cbn [ns_string include exclude] in H.
      rewrite length_app in H. cbn [List.length] in *. destruct H. split; auto. lia.
    + destruct (regexp_valid _); [|discriminate].
      apply IH in H. cbn [ns_string include exclude] in H.
      rewrite length_app in H. cbn [List.length] in *. destruct H. split; auto. lia.
Qed.

(** X16. What [debug] does with a string other than the stored one. When
    the string holds no namespace (it is empty or made of separators), only
    the stored string changes. Otherwise the level becomes [debug]; if
    every expression compiles, each piece yields one include or exclude
    expression and the array of pieces, not the string, is stored, so that
    the same call made again is not short-cut; if some expression does not
    compile, the call throws and the old expressions stay, with the string
    stored. *)
Theorem debug_outcomes s lg :
  same_string (ns_string (namespaces lg)) s = false ->
  (split_namespaces s = [] ->
   debug s lg
   = (false,
      set_namespaces (mkNamespaces (NsStr s) (include (namespaces lg))
                                   (exclude (namespaces lg))) lg))
  /\ (split_namespaces s <> [] ->
      level (snd (debug s lg)) = LDebug
      /\ (fst (debug s lg) = false ->
          ns_string (namespaces (snd (debug s lg)))
          = NsArr (split_namespaces s)
          /\ (List.length (include (namespaces (snd (debug s lg))))
              + List.length (exclude (namespaces (snd (debug s lg))))
              = List.length (split_namespaces s))%nat
          /\ same_string (ns_string (namespaces (snd (debug s lg)))) s = false)
      /\ (fst (debug s lg) = true ->
          namespaces (snd (debug s lg))
          = mkNamespaces (NsStr s) (include (namespaces lg))
                         (exclude (namespaces lg)))).
Proof.
  intros D. unfold debug. rewrite D. split.
  - intros ->. reflexivity.
  - intros N. destruct (split_namespaces s) as [|p ps] eqn:E; [congruence|].
    destruct (reduce_namespaces (p :: ps) (mkNamespaces (NsArr (p :: ps)) [] []))
      as [n|] eqn:Rd; cbn [fst snd].
    + split; [reflexivity|]. split; [|discriminate]. intros _.
      destruct (reduce_namespaces_counts _ _ _ Rd) as [Hs Hl].
      cbn [set_namespaces namespaces]. cbn [ns_string include exclude] in Hs, Hl.
      rewrite Hs. repeat split. simpl in Hl. simpl. lia.
    + split; [reflexivity|]. split; [discriminate|]. intros _. reflexivity.
Qed.

End WithRuntime.

Lemma debug_outcomes_witness :
  level (snd (debug (rt := example_runtime) "core:*,-core:install"
                (initial false))) = LDebug.
Proof.
  refine (proj1 (proj2 (debug_outcomes (rt := example_runtime)
                          "core:*,-core:install" (initial false) eq_refl) _)).
  vm_compute. discriminate.
Defined.

Lemma log_remote_sends_one_packet_witness :
  stdout (log (rt := example_runtime) "core" LInfo (MsgString "ready")
            [] 5 attached) = [].
Proof.
  exact (proj1 (proj2 (log_remote_sends_one_packet (rt := example_runtime)
                         "core" LInfo (MsgString "ready") [] 5 attached
                         eq_refl))).
Defined.

Lemma log_local_appends_witness :
  messages (log (rt := example_runtime) "core" LInfo (MsgString "ready")
              [] 5 (initial false))
  = [] ++ [mkEntry "core" LInfo "ready" [] 5].
Proof.
  exact (proj1 (log_local_appends (rt := example_runtime) "core" LInfo
                  (MsgString "ready") [] 5 (initial false) (fun _ => true)
                  eq_refl)).
Defined.

Lemma log_written_by_level_witness :
  lastlog (log (rt := example_runtime) "core" LWarn (MsgString "careful")
             [] 7 (initial true)) = Some 7.
Proof.
  refine (proj1 (log_written_by_level (rt := example_runtime) "core" LWarn
                   (MsgString "careful") [] 7 (initial true)
                   eq_refl eq_refl _)).
  right. reflexivity.
Defined.

Lemma shouldLog_monotone_witness :
  shouldLog (rt := example_runtime) "core" LError (initial false) = true.
Proof.
  refine (shouldLog_monotone (rt := example_runtime) "core" LInfo LError
            (initial false) _ eq_refl).
  vm_compute. discriminate.
Defined.

(** *** Parsing namespaces *)

Lemma sep_free_snoc cur c :
  sep_free (String.append cur (String c EmptyString))
  = (sep_free cur && negb (is_sep c))%bool.
Proof.
  induction cur as [|c' cur IH]; simpl.
  - now rewrite andb_true_r.
  - rewrite IH. now rewrite andb_assoc.
Qed.

Lemma fields_sep_free : forall s cur,
  sep_free cur = true -> Forall (fun p => sep_free p = true) (fields s cur).
Proof.
  induction s as [|c s IH]; intros cur H; cbn [fields].
  - constructor; auto.
  - destruct (is_sep c) eqn:E.
    + constructor; auto.
    + apply IH. rewrite sep_free_snoc, H, E. reflexivity.
Qed.

Lemma append_snoc cur c s :
  String.append (String.append cur (String c EmptyString)) s
  = String.append cur (String c s).
Proof. induction cur as [|c' cur IH]; simpl; congruence. Qed.

Lemma fields_no_sep : forall s cur,
  sep_free s = true -> fields s cur = [String.append cur s].
Proof.
  induction s as [|c s IH]; intros cur H; cbn [fields].
  - f_equal. induction cur; simpl; congruence.
  - simpl in H. apply andb_true_iff in H. destruct H as [Hc Hs].
    apply negb_true_iff in Hc. rewrite Hc.
    rewrite IH by assumption. now rewrite append_snoc.
Qed.

(** X17. The pieces [debug] splits a string into are never empty and hold
    no comma and no white space; a non-empty string without comma and
    white space is one piece, itself; the empty string has no piece. *)
Theorem split_namespaces_pieces s :
  Forall (fun p => nonempty p = true /\ sep_free p = true)
         (split_namespaces s)
  /\ (sep_free s = true -> nonempty s = true -> split_namespaces s = [s])
  /\ split_namespaces EmptyString = [].
Proof.
  unfold split_namespaces. split; [|split].
  - apply Forall_forall. intros p Hp. apply filter_In in Hp.
    destruct Hp as [Hin Hne]. split; auto.
    pose proof (fields_sep_free s EmptyString eq_refl) as F.
    rewrite Forall_forall in F. auto.
  - intros H N. rewrite fields_no_sep by assumption. simpl. now rewrite N.
  - reflexivity.
Qed.

(** X18. [replace_stars], the rewriting of [*] and [:*] into regular
    expression syntax, leaves a namespace without star as it is. *)
Theorem replace_stars_without_star s :
  star_free s = true -> replace_stars s = s.
Proof.
  induction s as [|c s IH]; auto.
  intros H. simpl in H. apply andb_true_iff in H. destruct H as [Hc Hs].
  apply negb_true_iff in Hc. cbn [replace_stars]. rewrite Hc.
  destruct s as [|c' s'].
  - reflexivity.
  - assert (Hc' : Ascii.eqb c' "*" = false).
    { simpl in Hs. apply andb_true_iff in Hs. destruct Hs as [Hs _].
      now apply negb_true_iff in Hs. }
    rewrite Hc', andb_false_r. f_equal. now apply IH.
Qed.

Lemma replace_stars_without_star_witness :
  replace_stars "core:install" = "core:install".
Proof.
  exact (replace_stars_without_star "core:install" eq_refl).
Defined.

(** *** Forwarding to a remote logger *)

Lemma has_remote_meta (meta : Meta) :
  JsMap.has "remote" (remote_meta meta) = true.
Proof.
  unfold remote_meta.
  assert (G : forall (l : Meta) (m : Meta),
             JsMap.has "remote" m = true ->
             JsMap.has "remote"
               (fold_left (fun m kv => JsMap.set (fst kv) (snd kv) m) l m)
             = true).
  { induction l as [|[k v] l IH]; intros m H; simpl; auto.
    apply IH. apply JsMapFacts.has_keys. apply JsMapFacts.keys_set.
    right. now apply JsMapFacts.has_keys. }
  apply G. reflexivity.
Qed.

Section WithRuntime.
Context {rt : Runtime}.

(** X19. A message logged as a string on a remote logger reaches the
    store of the logger at the other end of the socket: the one packet
    [log] sends parses into a call of [log] with the same label, level and
    message, and the receiving logger, when it is not remote itself, stores
    an entry with them and with a meta that carries [remote]. *)
Theorem remote_log_round_trip dbg l s meta now now' client server :
  isRemote client = true ->
  isRemote server = false ->
  exists sk data,
    socket client = Some sk
    /\ socket (log dbg l (MsgString s) meta now client)
       = Some (mkSocket (readyState sk)
                 (sent sk ++ [mkPacket dbg l (WireString s) (remote_meta meta)]))
    /\ received (mkPacket dbg l (WireString s) (remote_meta meta)) = Some data
    /\ messages (on_message data now' server)
       = messages server ++ [mkEntry dbg l s (remote_meta meta) now']
    /\ JsMap.has "remote" (remote_meta meta) = true.
Proof.
  intros Rc Rs. unfold log at 1. rewrite Rc. unfold isRemote in Rc.
  destruct (socket client) as [sk|] eqn:S; [|discriminate].
  exists sk, (mkInbound (Some (dbg, l, MsgString s, remote_meta meta)) None).
  repeat split.
  - unfold on_message. cbn [in_logAll in_log].
    now rewrite log_local_messages by exact Rs.
  - apply has_remote_meta.
Qed.

(** X20. The entries [remote] sends once connected are the whole store,
    in order, each with [remote] in its meta and nothing else changed;
    the handler of [connect] appends them as they come to the store of
    the receiving logger and writes nothing. *)
Theorem logAll_transfer now client server :
  map entry_message (logAll_payload client) = map entry_message (messages client)
  /\ map entry_debug (logAll_payload client) = map entry_debug (messages client)
  /\ map entry_level (logAll_payload client) = map entry_level (messages client)
  /\ map entry_timestamp (logAll_payload client)
     = map entry_timestamp (messages client)
  /\ Forall (fun e => JsMap.has "remote" (entry_meta e) = true)
            (logAll_payload client)
  /\ messages (on_message (mkInbound None (Some (logAll_payload client)))
                 now server)
     = messages server ++ logAll_payload client
  /\ stdout (on_message (mkInbound None (Some (logAll_payload client)))
               now server) = stdout server
  /\ stderr (on_message (mkInbound None (Some (logAll_payload client)))
               now server) = stderr server.
Proof.
  unfold logAll_payload. repeat split.
  - rewrite map_map. reflexivity.
  - rewrite map_map. reflexivity.
  - rewrite map_map. reflexivity.
  - rewrite map_map. reflexivity.
  - apply Forall_forall. intros e He. apply in_map_iff in He.
    destruct He as (e0 & <- & _). apply has_remote_meta.
Qed.

End WithRuntime.

Lemma remote_log_round_trip_witness :
  exists sk data,
    socket attached = Some sk
    /\ socket (log (rt := example_runtime) "core" LInfo (MsgString "ready")
                 [] 5 attached)
       = Some (mkSocket (readyState sk)
                 (sent sk ++ [mkPacket "core" LInfo (WireString "ready")
                                       (remote_meta [])]))
    /\ received (mkPacket "core" LInfo (WireString "ready") (remote_meta []))
       = Some data
    /\ messages (on_message (rt := example_runtime) data 6 (initial false))
       = messages (initial false)
         ++ [mkEntry "core" LInfo "ready" (remote_meta []) 6]
    /\ JsMap.has "remote" (remote_meta []) = true.
Proof.
  exact (remote_log_round_trip (rt := example_runtime) "core" LInfo "ready"
           [] 5 6 attached (initial false) eq_refl eq_refl).
Defined.

End LoggerMoreFacts.

(* ===================================================================== *)
(** ** Further properties of Percy *)
(* ===================================================================== *)

Module PercyMoreFacts.
Import Percy PercySpec PercyMore.

(** X21. The flags of a new instance are nested: a dry run skips uploads,
    and skipping uploads defers them. The uploads queue starts stopped
    exactly when uploads are deferred, the snapshots queue starts running,
    nothing is queued, and both queues get the configured concurrency, or
    10 when none (or zero) is configured. *)
Theorem construct_flags dry skip defer conc :
  (dryRun (construct dry skip defer conc) = true ->
   skipUploads (construct dry skip defer conc) = true)
  /\ (skipUploads (construct dry skip defer conc) = true ->
      deferUploads (construct dry skip defer conc) = true)
  /\ Queue.running (uploads (construct dry skip defer conc))
     = negb (deferUploads (construct dry skip defer conc))
  /\ Queue.running (snapshots (construct dry skip defer conc)) = true
  /\ Queue.concurrency (uploads (construct dry skip defer conc))
     = Queue.concurrency (snapshots (construct dry skip defer conc))
  /\ Queue.concurrency (snapshots (construct dry skip defer conc))
     = match conc with
       | Some c => if c =? 0 then 10 else c
       | None => 10
       end
  /\ Queue.size (uploads (construct dry skip defer conc)) = 0
  /\ Queue.size (snapshots (construct dry skip defer conc)) = 0
  /\ readyState (construct dry skip defer conc) = None.
Proof.
  unfold construct. cbn [dryRun skipUploads deferUploads uploads snapshots
                         readyState].
  destruct dry, skip, defer; cbn [orb negb];
    (destruct conc as [c|]; [destruct (c =? 0)|]); cbn [negb];
    repeat split; auto.
Qed.

Lemma has_cancel_stays_false i j q :
  Queue.has j q = false -> Queue.has j (Queue.cancel i q) = false.
Proof.
  intros H. destruct (String.eqb j i) eqn:E.
  - apply String.eqb_eq in E. subst. apply QueueFacts.has_cancel.
  - apply String.eqb_neq in E. unfold Queue.has in *. simpl.
    now rewrite !JsMapFacts.has_delete_other by assumption.
Qed.

Lemma fold_cancel_stays_false j : forall names q,
  Queue.has j q = false ->
  Queue.has j (fold_left (fun q name => Queue.cancel (upload_id name) q)
                         names q) = false.
Proof.
  induction names as [|n names IH]; intros q H; simpl; auto.
  apply IH. now apply has_cancel_stays_false.
Qed.

Lemma fold_cancel_removes : forall names q name,
  In name names ->
  Queue.has (upload_id name)
    (fold_left (fun q name => Queue.cancel (upload_id name) q) names q)
  = false.
Proof.
  induction names as [|n names IH]; intros q name H; [destruct H|].
  destruct H as [->|H]; simpl.
  - apply fold_cancel_stays_false. apply QueueFacts.has_cancel.
  - now apply IH.
Qed.

(** X22. After [_cancelSnapshot], the snapshots queue no longer holds the
    snapshot's task, and the uploads queue holds no upload for the
    snapshot nor for any of its additional snapshots, queued or pending. *)
Theorem cancelSnapshot_removes snap p :
  Queue.has (snapshot_id (snap_name snap))
            (snapshots (_cancelSnapshot snap p)) = false
  /\ forall name,
       name = snap_name snap \/ In name (additional snap) ->
       Queue.has (upload_id name) (uploads (_cancelSnapshot snap p)) = false.
Proof.
  split.
  - apply QueueFacts.has_cancel.
  - intros name H. unfold _cancelSnapshot. cbn [uploads].
    apply fold_cancel_removes. destruct H as [->|H]; [now left | now right].
Qed.

Lemma upload_id_plain name : String.prefix "@@/" (upload_id name) = false.
Proof. reflexivity. Qed.

Lemma snapshot_id_plain name : String.prefix "@@/" (snapshot_id name) = false.
Proof. reflexivity. Qed.

(** X23. After [close()] both queues are closed and stopped with nothing
    queued, and the instance takes no more work: [_scheduleUpload] either
    throws the build error or returns [undefined], and in both cases leaves
    the instance as it is; [_takeSnapshot] returns [undefined] and queues
    nothing. *)
Theorem close_takes_no_work p name f snap g :
  Queue.closed (uploads (close p)) = true
  /\ Queue.closed (snapshots (close p)) = true
  /\ Queue.running (uploads (close p)) = false
  /\ Queue.running (snapshots (close p)) = false
  /\ Queue.queued (uploads (close p)) = []
  /\ Queue.queued (snapshots (close p)) = []
  /\ snd (_scheduleUpload name f (close p)) = close p
  /\ ((exists e, fst (_scheduleUpload name f (close p)) = SThrows e)
      \/ fst (_scheduleUpload name f (close p)) = SReturns None)
  /\ fst (_takeSnapshot snap g (close p)) = None
  /\ Queue.queued (snapshots (snd (_takeSnapshot snap g (close p)))) = [].
Proof.
  assert (U : Queue.push (upload_id name) (Queue.CbClient f) Queue.PUndefined
                (uploads (close p)) = (None, uploads (close p))).
  { unfold Queue.push. cbn [close uploads Queue.close Queue.closed
                            Queue.set_closed].
    now rewrite upload_id_plain. }
  assert (T : Queue.push (snapshot_id (snap_name snap)) (Queue.CbClient g)
                Queue.PUndefined (snapshots (_cancelSnapshot snap (close p)))
              = (None, snapshots (_cancelSnapshot snap (close p)))).
  { unfold Queue.push. cbn [_cancelSnapshot close snapshots Queue.close
                            Queue.cancel Queue.closed Queue.set_closed
                            Queue.set_queued Queue.set_pending
                            Queue.set_flights].
    now rewrite snapshot_id_plain. }
  do 6 (split; [reflexivity|]).
  split; [|split; [|split]].
  - unfold _scheduleUpload. destruct (error_set (close p)); [reflexivity|].
    rewrite U. reflexivity.
  - unfold _scheduleUpload. destruct (error_set (close p)).
    + left. eexists. reflexivity.
    + right. rewrite U. reflexivity.
  - unfold _takeSnapshot. rewrite T. reflexivity.
  - unfold _takeSnapshot. rewrite T. reflexivity.
Qed.

Section Poisoned.
Variable take : Options -> Percy -> Result * Percy.
Variable all : list nat -> nat.

(** X24. Once an upload was rejected with a build error of non-empty
    detail, the build is marked failed and both queues are closed; every
    later [_scheduleUpload] throws that detail and queues nothing, and so
    does every [snapshot] call on a running instance, whatever its
    argument. *)
Theorem build_rejected_poisons b detail p name f options :
  build p = Some b ->
  Logger.nonempty detail = true ->
  build_error_of (build_rejected (Some detail) p) = Some detail
  /\ Queue.closed (uploads (build_rejected (Some detail) p)) = true
  /\ Queue.closed (snapshots (build_rejected (Some detail) p)) = true
  /\ _scheduleUpload name f (build_rejected (Some detail) p)
     = (SThrows detail, build_rejected (Some detail) p)
  /\ (readyState p = Some 1 ->
      snapshot take all options (build_rejected (Some detail) p)
      = (Throws detail, build_rejected (Some detail) p)).
Proof.
  intros B D.
  assert (E : error_set (build_rejected (Some detail) p) = true).
  { unfold build_rejected, error_set, build_error_of. rewrite B. exact D. }
  assert (Be : build_error_of (build_rejected (Some detail) p) = Some detail).
  { unfold build_rejected, build_error_of. now rewrite B. }
  repeat split; auto.
  - unfold build_rejected. now rewrite B.
  - unfold build_rejected. now rewrite B.
  - unfold _scheduleUpload. now rewrite E, Be.
  - intros R.
    assert (N : not_running (build_rejected (Some detail) p) = false).
    { unfold build_rejected, not_running. rewrite B. cbn [close readyState].
      now rewrite R. }
    destruct options; simpl; now rewrite N, E, Be.
Qed.
End Poisoned.


Lemma build_rejected_poisons_witness :
  build_error_of (build_rejected (Some "Build has exceeded its limit")
                    build_failed_run)
  = Some "Build has exceeded its limit".
Proof.
  exact (proj1 (build_rejected_poisons (fun _ p => (Returns 0, p))
                  (fun _ => 0%nat) _ "Build has exceeded its limit"
                  build_failed_run "home" 0%nat (OptString "/")
                  eq_refl eq_refl)).
Defined.

(** *** The build task goes first *)

Lemma scan_keeps c : forall rest,
  Forall (fun e => Queue.priority (snd e) = Queue.PUndefined) rest ->
  Queue.scan (Some c) rest = Some c.
Proof.
  induction rest as [|[k t] rest IH]; intros F; cbn [Queue.scan]; auto.
  inversion F as [|? ? Ht F']; subst. simpl in Ht.
  rewrite (QueueFacts.replaces_undefined c t Ht).
  destruct (String.eqb k Queue.flush_id); auto.
Qed.

Lemma run_loop_stopped fuel q :
  Queue.running q = false -> Queue.run_loop fuel q = q.
Proof.
  intros R. destruct fuel; cbn [Queue.run_loop]; auto.
  unfold Queue.run_cond. now rewrite R.
Qed.

Lemma upload_id_not_build name :
  String.eqb build_task_id (upload_id name) = false.
Proof. reflexivity. Qed.

Lemma build_waiting_cancel c name u :
  build_waiting c u -> build_waiting c (Queue.cancel (upload_id name) u).
Proof.
  intros (R & C & Cc & P & Ca & rest & Q & F).
  unfold build_waiting. simpl. rewrite P, Q.
  repeat split; auto.
  exists (JsMap.delete (upload_id name) rest). split.
  - unfold JsMap.delete. cbn [filter fst]. rewrite upload_id_not_build.
    reflexivity.
  - rewrite Forall_forall in *. intros e He.
    apply JsMapFacts.in_delete in He. apply F. tauto.
Qed.

Lemma build_waiting_step c o u :
  upload_op o -> build_waiting c u -> build_waiting c (Queue.step o u).
Proof.
  destruct o; simpl; try contradiction.
  - intros [[name ->] ->] H.
    pose proof (build_waiting_cancel c name u H)
      as (R & C & Cc & P & Ca & rest & Q & F).
    destruct H as (_ & C0 & _).
    unfold Queue.push. rewrite C0. cbn [andb]. unfold Queue.enqueue.
    cbn [snd]. rewrite QueueMoreFacts.dequeue_stopped by exact R.
    unfold build_waiting. cbn [Queue.add_task Queue.running Queue.closed
                               Queue.concurrency Queue.pending Queue.calls
                               Queue.queued].
    repeat split; auto. rewrite Q.
    eexists. split.
    + cbn [JsMap.set]. rewrite upload_id_not_build. reflexivity.
    + rewrite Forall_forall in *. intros e He.
      destruct (JsMapFacts.in_set _ _ _ _ He) as [->|Hin]; auto.
  - intros [name ->] H. now apply build_waiting_cancel.
Qed.

Lemma build_waiting_run c u :
  0 < c -> build_waiting c u ->
  Queue.calls (Queue.run u) = [0%nat]
  /\ Queue.running (Queue.run u) = false
  /\ JsMap.keys (Queue.pending (Queue.run u)) = [build_task_id].
Proof.
  intros Hc (R & C & Cc & P & Ca & rest & Q & F).
  unfold Queue.run. cbn [Queue.set_running Queue.queued]. rewrite Q.
  cbn [List.length Queue.run_loop].
  assert (Cond : Queue.run_cond (Queue.set_running true u) = true).
  { unfold Queue.run_cond. cbn [Queue.set_running Queue.running Queue.queued
                                Queue.pending Queue.concurrency].
    rewrite Q, P, Cc. cbn [andb]. apply andb_true_iff. split.
    - reflexivity.
    - apply Z.ltb_lt. exact Hc. }
  rewrite Cond.
  assert (Pr : Queue.promoted (Queue.set_running true u)
               = Some (Queue.mkTask build_task_id build_callback
                                    (Queue.PNum 0) 0)).
  { unfold Queue.promoted. cbn [Queue.set_running Queue.running negb
                                Queue.concurrency Queue.pending].
    rewrite P, Cc.
    replace (c <=? JsMap.size []) with false
      by (symmetry; apply Z.leb_gt; exact Hc).
    unfold Queue.next. cbn [Queue.set_running Queue.queued]. rewrite Q.
    cbn [Queue.scan Queue.replaces].
    replace (String.eqb build_task_id Queue.flush_id) with false by reflexivity.
    now apply scan_keeps. }
  unfold Queue._dequeue. rewrite Pr.
  rewrite run_loop_stopped by reflexivity.
  unfold Queue.promote, Queue.invoke, build_callback.
  cbn [Queue.callback Queue.stop Queue.set_running Queue.set_queued
       Queue.set_pending Queue.calls Queue.running Queue.pending Queue.id].
  rewrite Ca, P. repeat split.
Qed.

Lemma start_fresh_deferred u c :
  Queue.running u = false -> Queue.closed u = false ->
  Queue.concurrency u = c -> Queue.pending u = [] -> Queue.queued u = [] ->
  Queue.calls u = [] -> Queue.fresh u = 0%nat ->
  build_waiting c
    (snd (Queue.push build_task_id build_callback (Queue.PNum 0) u)).
Proof.
  intros R C Cc P Q Ca Fr. unfold Queue.push. rewrite C. cbn [andb].
  unfold Queue.enqueue. cbn [snd].
  rewrite QueueMoreFacts.dequeue_stopped by (simpl; exact R).
  unfold build_waiting. cbn [Queue.add_task Queue.cancel Queue.set_queued
                             Queue.set_pending Queue.set_flights
                             Queue.running Queue.closed Queue.concurrency
                             Queue.pending Queue.calls Queue.queued
                             Queue.fresh].
  rewrite P, Q, Fr. repeat split; auto.
  exists []. split; [reflexivity | constructor].
Qed.

(** X27. The build task goes first. On a new instance whose uploads are
    deferred, [start] leaves [build/create] waiting in the stopped uploads
    queue; whatever uploads are scheduled or cancelled afterwards, nothing
    starts, and when the queue is run the callback of [build/create] is the
    only one started: it stops the queue again, so that no upload starts
    before the build exists. A second [start] changes nothing. *)
Theorem build_create_first dry skip defer conc ups :
  deferUploads (construct dry skip defer conc) = true ->
  0 < Queue.concurrency (uploads (construct dry skip defer conc)) ->
  Forall upload_op ups ->
  Queue.calls
    (Queue.exec ups (uploads (start_begin (construct dry skip defer conc))))
  = []
  /\ Queue.calls
       (Queue.run
          (Queue.exec ups
             (uploads (start_begin (construct dry skip defer conc)))))
     = [0%nat]
  /\ Queue.running
       (Queue.run
          (Queue.exec ups
             (uploads (start_begin (construct dry skip defer conc)))))
     = false
  /\ JsMap.keys
       (Queue.pending
          (Queue.run
             (Queue.exec ups
                (uploads (start_begin (construct dry skip defer conc))))))
     = [build_task_id]
  /\ start_begin (start_begin (construct dry skip defer conc))
     = start_begin (construct dry skip defer conc).
Proof.
  intros D Hc U.
  set (c := Queue.concurrency (uploads (construct dry skip defer conc))) in *.
  assert (W : build_waiting c
                (uploads (start_begin (construct dry skip defer conc)))).
  { unfold start_begin. cbn [construct readyState uploads].
    cbn [construct deferUploads] in D.
    apply start_fresh_deferred; try reflexivity;
      rewrite D; destruct conc as [k|]; try destruct (negb (k =? 0));
      reflexivity. }
  assert (W' : build_waiting c
                 (Queue.exec ups
                    (uploads (start_begin (construct dry skip defer conc))))).
  { apply (QueueFacts.exec_invariant (build_waiting c) upload_op); auto.
    intros o q. apply build_waiting_step. }
  destruct (build_waiting_run c _ Hc W') as (H1 & H2 & H3).
  destruct W' as (_ & _ & _ & _ & Ca & _).
  repeat split; auto.
Qed.

Lemma build_create_first_witness :
  Forall upload_op [Queue.OpPush (upload_id "home") 0 Queue.PUndefined;
                    Queue.OpPush (upload_id "about") 1 Queue.PUndefined;
                    Queue.OpCancel (upload_id "home")]
  /\ Queue.calls
       (Queue.run
          (Queue.exec [Queue.OpPush (upload_id "home") 0 Queue.PUndefined;
                       Queue.OpPush (upload_id "about") 1 Queue.PUndefined;
                       Queue.OpCancel (upload_id "home")]
             (uploads (start_begin (construct false false true (Some 5))))))
     = [0%nat].
Proof.
  assert (U : Forall upload_op
                [Queue.OpPush (upload_id "home") 0 Queue.PUndefined;
                 Queue.OpPush (upload_id "about") 1 Queue.PUndefined;
                 Queue.OpCancel (upload_id "home")]).
  { repeat (apply Forall_cons; [simpl; eauto|]). apply Forall_nil. }
  split; [exact U|].
  refine (proj1 (proj2 (build_create_first false false true (Some 5) _
                          eq_refl _ U))).
  vm_compute. reflexivity.
Defined.

End PercyMoreFacts.

(* ===================================================================== *)
(** ** Properties of the Chromium tables *)
(* ===================================================================== *)

Module InstallFacts.
Import Install.

Lemma get_tables key revision :
  is_some (JsMap.get key revisions) = is_some (JsMap.get key (archives revision))
  /\ is_some (JsMap.get key revisions) = is_some (JsMap.get key executables).
Proof.
  unfold revisions, archives, executables. cbn [JsMap.get].
  destruct (String.eqb "linux" key), (String.eqb "win64" key),
    (String.eqb "win32" key), (String.eqb "darwin" key),
    (String.eqb "darwinArm" key); split; reflexivity.
Qed.

(** X26. The three tables [chromium] reads by platform cover the same
    platforms: wherever a default revision is found, an archive path and an
    executable are found too, and conversely. Linux, macOS and Windows are
    covered on every architecture; a 64-bit Windows takes the [win64]
    entries and an ARM macOS the [darwinArm] entries. *)
Theorem chromium_tables_agree platform arch revision :
  is_some (selectByPlatform platform arch revisions)
  = is_some (selectByPlatform platform arch (archives revision))
  /\ is_some (selectByPlatform platform arch revisions)
     = is_some (selectByPlatform platform arch executables)
  /\ (platform = "linux" \/ platform = "darwin" \/ platform = "win32" ->
      is_some (selectByPlatform platform arch revisions) = true)
  /\ selectByPlatform "win32" "x64" revisions = JsMap.get "win64" revisions
  /\ selectByPlatform "darwin" "arm64" revisions
     = JsMap.get "darwinArm" revisions.
Proof.
  unfold selectByPlatform. split; [|split; [|split]].
  - apply get_tables.
  - apply (get_tables _ revision).
  - intros [-> | [-> | ->]]; cbn [String.eqb Ascii.eqb Bool.eqb andb];
      destruct (String.eqb arch "x64"), (String.eqb arch "arm64"); reflexivity.
  - split; reflexivity.
Qed.

End InstallFacts.
